(** * Archive-and-verify engine of [zip_folder.py]

    A shallow embedding of the archiving tool (path normaliser, digest
    engine, archive builder, manifest writer and reader, integrity verifier,
    command-line driver) together with the properties stated about it.

    Conventions of the embedding.
    - A Python [str] is a list of characters ([list ascii], code points
      below 256); a Python [bytes] value is a [list byte].
    - A [pathlib.Path] is the list of its components; the platform is
      POSIX, so [str(path)] joins the components with a slash, and a
      backslash or a colon is an ordinary character of a file name.
    - A [dict] is an association list kept in insertion order.
    - Python exceptions are modelled by [option] or by a sum: [None] is
      the raise.
    - [hashlib], [zipfile], [os.walk] and the file system are libraries of
      the program; they are modelled by their documented behaviour.  The
      source tree does not change during a run, except that a file may be
      lost between its digest and its addition to the container.  The two
      output paths are distinct and lie outside the source tree.  The
      scratch directory of the verifier is empty at the start, and a
      member extracted into it is read back as it was stored. *)

From Stdlib Require Import Ascii String Strings.Byte.
From Stdlib Require Import List ZArith Lia Bool Arith Permutation FinFun.
From Equations Require Import Equations.
Import ListNotations.

(* ===================================================================== *)
(** * Strings and bytes *)
(* ===================================================================== *)

(** Python [str]. *)
Abbreviation str := (list ascii) (only parsing).

(** Python [bytes]. *)
Abbreviation bytes := (list byte) (only parsing).

(** A string literal of the source, as a [str]. *)
Definition lit (s : string) : str := list_ascii_of_string s.

Definition bytes_of_str (s : str) : bytes := map byte_of_ascii s.

Definition str_eqb (a b : str) : bool :=
  if list_eq_dec ascii_dec a b then true else false.

Definition backslash : ascii := "\"%char.
Definition slash : ascii := "/"%char.
Definition colon : ascii := ":"%char.
Definition newline : ascii := "010"%char.
Definition carriage_return : ascii := "013"%char.

(** [s.replace(old, new)] for one-character [old] and [new]. *)
Fixpoint str_replace (old new : ascii) (s : str) : str :=
  match s with
  | [] => []
  | c :: rest =>
      (if Ascii.eqb c old then new else c) :: str_replace old new rest
  end.

(** [sep.join(parts)]. *)
Fixpoint str_join (sep : str) (parts : list str) : str :=
  match parts with
  | [] => []
  | [p] => p
  | p :: rest => p ++ sep ++ str_join sep rest
  end.

(** [s.split(sep)] for a one-character separator: every occurrence of the
    separator cuts, empty fields are kept, and the result is never empty. *)
Fixpoint str_split (sep : ascii) (s : str) : list str :=
  match s with
  | [] => [[]]
  | c :: rest =>
      if Ascii.eqb c sep then [] :: str_split sep rest
      else match str_split sep rest with
           | [] => [[c]]
           | field :: fields => (c :: field) :: fields
           end
  end.

(** The characters that [str.isspace] accepts, among code points below 256:
    tab to carriage return, the four separators 28 to 31, space, NEL and
    the no-break space. *)
Definition is_space (c : ascii) : bool :=
  let n := nat_of_ascii c in
  ((9 <=? n) && (n <=? 13)) || ((28 <=? n) && (n <=? 32))
  || (n =? 133) || (n =? 160).

Fixpoint str_lstrip (s : str) : str :=
  match s with
  | [] => []
  | c :: rest => if is_space c then str_lstrip rest else s
  end.

Definition str_rstrip (s : str) : str := rev (str_lstrip (rev s)).

(** [s.strip()]. *)
Definition str_strip (s : str) : str := str_rstrip (str_lstrip s).

(* ===================================================================== *)
(** * Path Normalizer *)
(* ===================================================================== *)

(** [return path.replace('\\', '/')] *)
Definition normalize_path (path : str) : str :=
  str_replace backslash slash path.

(* ===================================================================== *)
(** * [hashlib.sha256]

    SHA-256 of FIPS 180-4 on 32-bit words held in [Z], every addition
    reduced modulo [2^32]. *)
(* ===================================================================== *)

Module SHA256.

Local Open Scope Z_scope.

Definition wrap (x : Z) : Z := x mod 2 ^ 32.
Definition add32 (x y : Z) : Z := wrap (x + y).
Definition rotr (n x : Z) : Z :=
  wrap (Z.lor (Z.shiftr x n) (Z.shiftl x (32 - n))).
Definition shr (n x : Z) : Z := Z.shiftr x n.
Definition not32 (x : Z) : Z := Z.lxor x 0xffffffff.

Definition Ch (x y z : Z) : Z := Z.lxor (Z.land x y) (Z.land (not32 x) z).
Definition Maj (x y z : Z) : Z :=
  Z.lxor (Z.lxor (Z.land x y) (Z.land x z)) (Z.land y z).
Definition Sigma0 (x : Z) : Z :=
  Z.lxor (Z.lxor (rotr 2 x) (rotr 13 x)) (rotr 22 x).
Definition Sigma1 (x : Z) : Z :=
  Z.lxor (Z.lxor (rotr 6 x) (rotr 11 x)) (rotr 25 x).
Definition sigma0 (x : Z) : Z :=
  Z.lxor (Z.lxor (rotr 7 x) (rotr 18 x)) (shr 3 x).
Definition sigma1 (x : Z) : Z :=
  Z.lxor (Z.lxor (rotr 17 x) (rotr 19 x)) (shr 10 x).

(** The constants of the standard are the first 32 bits of the fractional
    parts of the square roots (initial hash value) and of the cube roots
    (round constants) of the first primes. *)
Definition is_prime (n : nat) : bool :=
  forallb (fun d => negb (Nat.eqb (n mod d) 0)) (seq 2 (n - 2)).

Definition primes (count : nat) : list Z :=
  map Z.of_nat (firstn count (filter is_prime (seq 2 310))).

(** The largest [r + m] with [m < 2 ^ bits] and [(r + m) ^ k <= n]. *)
Fixpoint integer_root (k n : Z) (bits : nat) (r : Z) : Z :=
  match bits with
  | O => r
  | S bits' =>
      let r' := r + 2 ^ Z.of_nat bits' in
      if r' ^ k <=? n then integer_root k n bits' r'
      else integer_root k n bits' r
  end.

Definition fractional_root (k p : Z) : Z :=
  wrap (integer_root k (p * 2 ^ (32 * k)) 36 0).

Definition K : list Z :=
  Eval vm_compute in map (fractional_root 3) (primes 64).

(** The eight working words. *)
Record words8 : Type := W8 {
  wa : Z; wb : Z; wc : Z; wd : Z; we : Z; wf : Z; wg : Z; wh : Z }.

Definition H0 : words8 :=
  Eval vm_compute in
    match map (fractional_root 2) (primes 8) with
    | [a; b; c; d; e; f; g; h] => W8 a b c d e f g h
    | _ => W8 0 0 0 0 0 0 0 0
    end.

(** Padding: the bit [1], zeros up to 56 modulo 64, the bit length on
    eight bytes, big end first. *)
Definition be_bytes (n : nat) (x : Z) : list Z :=
  map (fun i => (x / 2 ^ (8 * Z.of_nat i)) mod 256) (rev (seq 0 n)).

Definition pad (msg : list Z) : list Z :=
  let len := Z.of_nat (length msg) in
  msg ++ [0x80] ++ repeat 0 (Z.to_nat ((55 - len) mod 64))
      ++ be_bytes 8 (8 * len).

Fixpoint be_word (bs : list Z) (acc : Z) : Z :=
  match bs with
  | [] => acc
  | b :: rest => be_word rest (acc * 256 + b)
  end.

Fixpoint group (size count : nat) (l : list Z) : list (list Z) :=
  match count with
  | O => []
  | S count' => firstn size l :: group size count' (skipn size l)
  end.

(** The sixteen words of a 64-byte block. *)
Definition block_words (block : list Z) : list Z :=
  map (fun bs => be_word bs 0) (group 4 16 block).

(** The message schedule: [extra] more words after the ones in [w]. *)
Fixpoint schedule (extra : nat) (w : list Z) : list Z :=
  match extra with
  | O => w
  | S extra' =>
      let t := length w in
      let at_ k := nth (t - k) w 0 in
      schedule extra'
        (w ++ [add32 (add32 (sigma1 (at_ 2%nat)) (at_ 7%nat))
                     (add32 (sigma0 (at_ 15%nat)) (at_ 16%nat))])
  end.

Definition round (s : words8) (kw : Z * Z) : words8 :=
  let t1 := add32 (add32 (add32 (wh s) (Sigma1 (we s)))
                         (add32 (Ch (we s) (wf s) (wg s)) (fst kw)))
                  (snd kw) in
  let t2 := add32 (Sigma0 (wa s)) (Maj (wa s) (wb s) (wc s)) in
  W8 (add32 t1 t2) (wa s) (wb s) (wc s) (add32 (wd s) t1)
     (we s) (wf s) (wg s).

Definition compress (h : words8) (block : list Z) : words8 :=
  let w := schedule 48 (block_words block) in
  let s := fold_left round (combine K w) h in
  W8 (add32 (wa h) (wa s)) (add32 (wb h) (wb s)) (add32 (wc h) (wc s))
     (add32 (wd h) (wd s)) (add32 (we h) (we s)) (add32 (wf h) (wf s))
     (add32 (wg h) (wg s)) (add32 (wh h) (wh s)).

(** The digest of a whole message, as eight words. *)
Definition digest_words (msg : bytes) : words8 :=
  let padded := pad (map (fun b => Z.of_N (Byte.to_N b)) msg) in
  fold_left compress (group 64 (length padded / 64) padded) H0.

Definition hex_digit (d : Z) : ascii :=
  nth (Z.to_nat d) (list_ascii_of_string "0123456789abcdef") "0"%char.

(** Eight lowercase hexadecimal digits of a word, high nibble first. *)
Definition hex_word (x : Z) : str :=
  map (fun i => hex_digit ((x / 16 ^ Z.of_nat i) mod 16)) (rev (seq 0 8)).

Definition hex_words (h : words8) : str :=
  hex_word (wa h) ++ hex_word (wb h) ++ hex_word (wc h) ++ hex_word (wd h)
  ++ hex_word (we h) ++ hex_word (wf h) ++ hex_word (wg h)
  ++ hex_word (wh h).

(** SHA-256 of a message, in lowercase hexadecimal. *)
Definition hexdigest_of (msg : bytes) : str := hex_words (digest_words msg).

(** A [hashlib.sha256()] object.  By the library's contract a sequence of
    [update] calls is equivalent to one call with the concatenation of the
    arguments, so the object is the data it has absorbed. *)
Record hash_object : Type := HashObject { absorbed : bytes }.

(** [hashlib.sha256()] *)
Definition new : hash_object := HashObject [].

(** [h.update(chunk)] *)
Definition update (h : hash_object) (chunk : bytes) : hash_object :=
  HashObject (absorbed h ++ chunk).

(** [h.hexdigest()] *)
Definition hexdigest (h : hash_object) : str := hexdigest_of (absorbed h).

End SHA256.

(* ===================================================================== *)
(** * Files and the file system *)
(* ===================================================================== *)

(** How a file of the source tree behaves while it is archived.
    - [Sound]: every access succeeds.
    - [Unreadable]: opening or reading it raises [OSError].
    - [LostBeforeAdd]: it can be read when it is digested, and
      [ZipFile.write] raises [OSError] on it afterwards (it was removed, its
      permissions changed, or the device failed in between).
    - [BadTimestamp]: it can be read, and [ZipFile.write] raises
      [ValueError] for it (its modification time is before 1980, which a
      ZIP entry cannot hold); this is not an [OSError]. *)
Inductive condition : Type :=
| Sound
| Unreadable
| LostBeforeAdd
| BadTimestamp.

Record file : Type := File {
  file_data : bytes;
  file_condition : condition }.

(** What a path names. *)
Inductive fs_object : Type :=
| RegularFile (f : file)
| Directory
| Missing.

(** A directory tree: a file, or a directory with its entries in the
    order in which [os.scandir] lists them. *)
#[warning="-register-all"]
Inductive tree : Type :=
| Leaf (f : file)
| Node (entries : list (str * tree)).

(** A path, as the list of its components. *)
Abbreviation path := (list (list ascii)) (only parsing).

(** [str(path)] for a relative path. *)
Definition path_str (p : path) : str :=
  match p with
  | [] => lit "."
  | _ => str_join [slash] p
  end.

Fixpoint assoc_find {A : Type} (name : str) (entries : list (str * A))
  : option A :=
  match entries with
  | [] => None
  | (n, a) :: rest => if str_eqb n name then Some a else assoc_find name rest
  end.

(** The object that a path relative to [t] names. *)
Fixpoint fs_lookup (t : tree) (p : path) : fs_object :=
  match p with
  | [] => match t with
          | Leaf f => RegularFile f
          | Node _ => Directory
          end
  | name :: rest =>
      match t with
      | Leaf _ => Missing
      | Node entries =>
          match assoc_find name entries with
          | Some sub => fs_lookup sub rest
          | None => Missing
          end
      end
  end.

Definition is_dir (t : tree) : bool :=
  match t with
  | Node _ => true
  | Leaf _ => false
  end.

Definition dirnames (entries : list (str * tree)) : list str :=
  map fst (filter (fun e => is_dir (snd e)) entries).

Definition filenames (entries : list (str * tree)) : list str :=
  map fst (filter (fun e => negb (is_dir (snd e))) entries).

(** [os.walk(top)], top down: one triple [(root, dirs, files)] for the
    directory itself, then the triples of each sub-directory in turn.
    [top] is kept relative to the directory the walk started from. *)
Fixpoint os_walk (top : path) (t : tree)
  : list (path * list str * list str) :=
  match t with
  | Leaf _ => []
  | Node entries =>
      (top, dirnames entries, filenames entries)
      :: (fix subdirs (l : list (str * tree)) :=
            match l with
            | [] => []
            | (name, sub) :: l' => os_walk (top ++ [name]) sub ++ subdirs l'
            end) entries
  end.

(** [open(file_path, 'rb')]: the content to be read, or [None] for
    [OSError]. *)
Definition open_rb (o : fs_object) : option bytes :=
  match o with
  | RegularFile f =>
      match file_condition f with
      | Unreadable => None
      | _ => Some (file_data f)
      end
  | Directory => None
  | Missing => None
  end.

(** [f.read(size)] on the rest of an open file: the bytes returned and the
    bytes left.  A negative size reads to the end of the file. *)
Definition file_read (size : Z) (rest : bytes) : bytes * bytes :=
  if (size <? 0)%Z then (rest, [])
  else
    let n := Z.to_nat (Z.min size (Z.of_nat (length rest))) in
    (firstn n rest, skipn n rest).

(* ===================================================================== *)
(** * Digest Engine *)
(* ===================================================================== *)

(** [CHUNK_SIZE = 64 * 1024 * 1024] *)
Definition CHUNK_SIZE : Z := 64 * 1024 * 1024.

Definition inspect {A : Type} (a : A) : {b : A | a = b} :=
  exist _ a eq_refl.

(** [for chunk in iter(lambda: f.read(chunk_size), b''):
         sha256_hash.update(chunk)] *)
Equations? read_chunks (chunk_size : Z) (sha256_hash : SHA256.hash_object)
  (rest : bytes) : SHA256.hash_object by wf (length rest) lt :=
  read_chunks chunk_size sha256_hash rest
    with inspect (file_read chunk_size rest) := {
    | exist _ ([], _) _ => sha256_hash
    | exist _ (b :: chunk, rest') e =>
        read_chunks chunk_size (SHA256.update sha256_hash (b :: chunk)) rest' }.
Proof.
  unfold file_read in e.
  destruct (chunk_size <? 0)%Z.
  - inversion e; subst; simpl; lia.
  - inversion e as [[Hchunk Hrest]].
    rewrite length_skipn.
    assert (Z.to_nat (Z.min chunk_size (Z.of_nat (length rest))) <> 0).
    { intro H0. rewrite H0 in Hchunk. discriminate Hchunk. }
    lia.
Qed.

(** [compute_file_hash(file_path, chunk_size)]; [None] is the Python
    [None] returned when the file cannot be read. *)
Definition compute_file_hash (file_path : fs_object) (chunk_size : Z)
  : option str :=
  match open_rb file_path with
  | Some f =>
      Some (SHA256.hexdigest (read_chunks chunk_size SHA256.new f))
  | None => None
  end.

(** [list(iter(lambda: f.read(chunk_size), b''))]: the chunks that the
    loop of [compute_file_hash] receives, in order. *)
Equations? chunks_of (chunk_size : Z) (rest : bytes) : list bytes
  by wf (length rest) lt :=
  chunks_of chunk_size rest
    with inspect (file_read chunk_size rest) := {
    | exist _ ([], _) _ => []
    | exist _ (b :: chunk, rest') e =>
        (b :: chunk) :: chunks_of chunk_size rest' }.
Proof.
  unfold file_read in e.
  destruct (chunk_size <? 0)%Z.
  - inversion e; subst; simpl; lia.
  - inversion e as [[Hchunk Hrest]].
    rewrite length_skipn.
    assert (Z.to_nat (Z.min chunk_size (Z.of_nat (length rest))) <> 0).
    { intro H0. rewrite H0 in Hchunk. discriminate Hchunk. }
    lia.
Qed.

(* ===================================================================== *)
(** * Python [dict] with string keys *)
(* ===================================================================== *)

(** Keys in insertion order; assigning to a key that is present replaces
    its value where it stands. *)
Definition dict : Type := list (str * str).

(** [d[k] = v] *)
Fixpoint dict_set (d : dict) (k v : str) : dict :=
  match d with
  | [] => [(k, v)]
  | (k', v') :: rest =>
      if str_eqb k' k then (k', v) :: rest
      else (k', v') :: dict_set rest k v
  end.

(** [d[k]]; [None] is [KeyError]. *)
Fixpoint dict_get (d : dict) (k : str) : option str :=
  match d with
  | [] => None
  | (k', v') :: rest => if str_eqb k' k then Some v' else dict_get rest k
  end.

(** [d.keys()] *)
Definition dict_keys (d : dict) : list str := map fst d.

(* ===================================================================== *)
(** * [zipfile]: the archive container *)
(* ===================================================================== *)

(** A stored member: its payload, and whether the payload still matches
    the check sum recorded with it. *)
Record member : Type := Member {
  payload : bytes;
  intact : bool }.

(** The members of a container in the order in which they were added; a
    name may occur more than once. *)
Definition container : Type := list (str * member).

(** [posixpath.normpath]. *)
Definition initial_slashes (p : str) : nat :=
  match p with
  | c1 :: c2 :: c3 :: _ =>
      if Ascii.eqb c1 slash then
        if Ascii.eqb c2 slash then
          if Ascii.eqb c3 slash then 1 else 2
        else 1
      else 0
  | [c1; c2] =>
      if Ascii.eqb c1 slash then if Ascii.eqb c2 slash then 2 else 1 else 0
  | [c1] => if Ascii.eqb c1 slash then 1 else 0
  | [] => 0
  end.

Definition norm_step (slashes : nat) (new_comps : list str) (comp : str)
  : list str :=
  if str_eqb comp [] || str_eqb comp (lit ".") then new_comps
  else if negb (str_eqb comp (lit ".."))
          || (Nat.eqb slashes 0 && match new_comps with [] => true | _ => false end)
          || str_eqb (last new_comps []) (lit "..")
       then new_comps ++ [comp]
       else removelast new_comps.

Definition posix_normpath (p : str) : str :=
  match p with
  | [] => lit "."
  | _ =>
      let slashes := initial_slashes p in
      let comps := fold_left (norm_step slashes) (str_split slash p) [] in
      match repeat slash slashes ++ str_join [slash] comps with
      | [] => lit "."
      | r => r
      end
  end.

Fixpoint strip_leading (c : ascii) (s : str) : str :=
  match s with
  | [] => []
  | c' :: rest => if Ascii.eqb c' c then strip_leading c rest else s
  end.

(** The member name that [ZipInfo.from_file] derives from [arcname]: the
    normal form of the path without its leading separators.  [None] is the
    [IndexError] raised when nothing but separators is left. *)
Definition zip_arcname (arcname : str) : option str :=
  match strip_leading slash (posix_normpath arcname) with
  | [] => None
  | name => Some name
  end.

(** An exception that leaves [ZipFile.write]. *)
Inductive raised : Type :=
| OSError
| OtherError.

(** [zipf.write(file_path, arcname)]: the container with the member
    appended, or the exception. *)
Definition zip_write (zipf : container) (file_path : fs_object)
  (arcname : str) : container + raised :=
  match file_path with
  | Missing => inr OSError
  | Directory =>
      match zip_arcname arcname with
      | None => inr OtherError
      | Some name => inl (zipf ++ [(name ++ [slash], Member [] true)])
      end
  | RegularFile f =>
      match file_condition f with
      | Unreadable => inr OSError
      | LostBeforeAdd => inr OSError
      | BadTimestamp => inr OtherError
      | Sound =>
          match zip_arcname arcname with
          | None => inr OtherError
          | Some name => inl (zipf ++ [(name, Member (file_data f) true)])
          end
      end
  end.

(** [zipf.getinfo(name)]: the member added last under that name; [None]
    is [KeyError]. *)
Fixpoint getinfo (zipf : container) (name : str) : option member :=
  match zipf with
  | [] => None
  | (n, m) :: rest =>
      match getinfo rest name with
      | Some m' => Some m'
      | None => if str_eqb n name then Some m else None
      end
  end.

Definition ends_with_slash (name : str) : bool :=
  match rev name with
  | c :: _ => Ascii.eqb c slash
  | [] => false
  end.

(** [zipf.extract(name, temp_dir)] followed by a look at
    [temp_dir / name]: what the scratch directory holds there afterwards.
    [None] is the exception raised for a member that is absent or whose
    payload fails its check sum.  A member whose name ends in a slash is
    a directory. *)
Definition zip_extract (zipf : container) (name : str) : option fs_object :=
  match getinfo zipf name with
  | None => None
  | Some m =>
      if ends_with_slash name then Some Directory
      else if intact m then Some (RegularFile (File (payload m) Sound))
      else None
  end.

(* ===================================================================== *)
(** * Archive Builder *)
(* ===================================================================== *)

(** The two output files: [None] when the file does not exist. *)
Record disk : Type := Disk {
  container_file : option container;
  manifest_file : option str }.

(** Whether the output files can be opened for writing. *)
Record env : Type := Env {
  can_create_zip : bool;
  can_write_log : bool }.

(** The variables of [zip_folder] that the loop updates. *)
Record zstate : Type := ZState {
  file_hashes : dict;
  zipf : container;
  success : bool }.

(** The loop either goes on, or is left by an exception that only the
    outer handler catches. *)
Inductive flow : Type :=
| Continue (st : zstate)
| Abort (st : zstate).

(** The body of the inner loop, for the file [file] of directory [root]. *)
Definition process_file (source_folder : tree) (root : path) (file : str)
  (st : zstate) : flow :=
  let rel_path := root ++ [file] in
  let file_path := fs_lookup source_folder rel_path in
  let zip_path := normalize_path (path_str rel_path) in
  match compute_file_hash file_path CHUNK_SIZE with
  | None => Continue (ZState (file_hashes st) (zipf st) false)
  | Some file_hash =>
      let hashes := dict_set (file_hashes st) zip_path file_hash in
      match zip_write (zipf st) file_path zip_path with
      | inl zipf' => Continue (ZState hashes zipf' (success st))
      | inr OSError => Continue (ZState hashes (zipf st) false)
      | inr OtherError => Abort (ZState hashes (zipf st) (success st))
      end
  end.

(** [for file in files: ...] *)
Fixpoint process_files (source_folder : tree) (root : path)
  (files : list str) (st : zstate) : flow :=
  match files with
  | [] => Continue st
  | file :: rest =>
      match process_file source_folder root file st with
      | Continue st' => process_files source_folder root rest st'
      | Abort st' => Abort st'
      end
  end.

(** [for root, _, files in os.walk(source_folder): ...] *)
Fixpoint process_walk (source_folder : tree)
  (walk : list (path * list str * list str)) (st : zstate) : flow :=
  match walk with
  | [] => Continue st
  | (root, _, files) :: rest =>
      match process_files source_folder root files st with
      | Continue st' => process_walk source_folder rest st'
      | Abort st' => Abort st'
      end
  end.

(** [f.write(f"{file_path}:{file_hash}\n")] *)
Definition manifest_line (entry : str * str) : str :=
  fst entry ++ [colon] ++ snd entry ++ [newline].

(** The text written to the hash log. *)
Definition write_manifest (hashes : dict) : str :=
  flat_map manifest_line hashes.

(** [zip_folder(source_folder, output_zip, hash_log)]: the pair returned
    and the output files afterwards.  [d] is the state of the output files
    before the call; the two output paths are distinct and lie outside the
    source tree. *)
Definition zip_folder (e : env) (source_folder : tree) (d : disk)
  : (bool * dict) * disk :=
  if negb (can_create_zip e) then ((false, []), d)
  else
    match process_walk source_folder (os_walk [] source_folder)
            (ZState [] [] true) with
    | Abort st =>
        ((false, []), Disk (Some (zipf st)) (manifest_file d))
    | Continue st =>
        if negb (can_write_log e)
        then ((false, []), Disk (Some (zipf st)) (manifest_file d))
        else ((success st, file_hashes st),
              Disk (Some (zipf st)) (Some (write_manifest (file_hashes st))))
    end.

(* ===================================================================== *)
(** * Manifest Reader *)
(* ===================================================================== *)

(** [for line in f] on a file opened in text mode: a line ends at a line
    feed, a carriage return or the pair of them, each read as a line feed;
    the last line may lack its end. *)
Fixpoint file_lines (text : str) : list str :=
  match text with
  | [] => []
  | c :: rest =>
      if Ascii.eqb c newline then [newline] :: file_lines rest
      else if Ascii.eqb c carriage_return then
        match rest with
        | c' :: rest' =>
            if Ascii.eqb c' newline then [newline] :: file_lines rest'
            else [newline] :: file_lines rest
        | [] => [[newline]]
        end
      else
        match file_lines rest with
        | [] => [[c]]
        | line :: lines => (c :: line) :: lines
        end
  end.

(** [file_path, file_hash = line.strip().split(':')]; [None] is the
    [ValueError] of the unpacking. *)
Definition parse_line (line : str) : option (str * str) :=
  match str_split colon (str_strip line) with
  | [file_path; file_hash] => Some (file_path, file_hash)
  | _ => None
  end.

Fixpoint read_lines (lines : list str) (original_hashes : dict)
  : option dict :=
  match lines with
  | [] => Some original_hashes
  | line :: rest =>
      match parse_line line with
      | Some (file_path, file_hash) =>
          read_lines rest (dict_set original_hashes file_path file_hash)
      | None => None
      end
  end.

(** The dictionary read from the text of a hash log. *)
Definition read_manifest (text : str) : option dict :=
  read_lines (file_lines text) [].

(* ===================================================================== *)
(** * Integrity Verifier *)
(* ===================================================================== *)

(** The checks made for one path of the manifest: extraction, digest of
    the extracted file, comparison.  [false] is [return False]. *)
Definition verify_entry (zipf : container) (original_hashes : dict)
  (file_path : str) : bool :=
  match zip_extract zipf file_path with
  | None => false
  | Some extracted_path =>
      match compute_file_hash extracted_path CHUNK_SIZE with
      | None => false
      | Some extracted_hash =>
          match dict_get original_hashes file_path with
          | None => false
          | Some recorded =>
              if negb (str_eqb extracted_hash recorded) then false else true
          end
      end
  end.

(** [for file_path in original_hashes.keys(): ...] *)
Fixpoint verify_entries (zipf : container) (original_hashes : dict)
  (keys : list str) : bool :=
  match keys with
  | [] => true
  | file_path :: rest =>
      if verify_entry zipf original_hashes file_path
      then verify_entries zipf original_hashes rest
      else false
  end.

(** [verify_integrity(zip_path, hash_log)]; the arguments are what the
    two paths hold, [None] for a file that cannot be opened. *)
Definition verify_integrity (zip_path : option container)
  (hash_log : option str) : bool :=
  match hash_log with
  | None => false
  | Some text =>
      match read_manifest text with
      | None => false
      | Some original_hashes =>
          match zip_path with
          | None => false
          | Some zipf =>
              verify_entries zipf original_hashes (dict_keys original_hashes)
          end
      end
  end.

(* ===================================================================== *)
(** * Command-line driver *)
(* ===================================================================== *)

(** The parsed arguments: what [source_folder] names ([None] when nothing
    exists there) and the [--verify] flag. *)
Record arguments : Type := Arguments_ {
  source_folder : option tree;
  verify : bool }.

(** [main()]: the exit status of the process and the output files
    afterwards. *)
Definition main (args : arguments) (e : env) (d : disk) : Z * disk :=
  match source_folder args with
  | Some (Node entries) =>
      let '((success, _), d') := zip_folder e (Node entries) d in
      if negb success then (1%Z, d')
      else if verify args then
        if verify_integrity (container_file d') (manifest_file d')
        then (0%Z, d')
        else (1%Z, d')
      else (0%Z, d')
  | _ => (1%Z, d)
  end.

(* ===================================================================== *)
(** * Test harness ([test.py]) *)
(* ===================================================================== *)

(** [x in names], for a set of strings held as a list. *)
Definition set_mem (x : str) (names : list str) : bool :=
  existsb (str_eqb x) names.

(** [a - b] on sets of strings. *)
Definition set_diff (a b : list str) : list str :=
  filter (fun x => negb (set_mem x b)) a.

(** The set built by the two loops of [verify_zip_contents]:
    [normalize_path(str(rel_path))] for every file of every triple of
    [os.walk(original_dir)]. *)
Definition original_files (original_dir : tree) : list str :=
  flat_map (fun triple =>
              map (fun file =>
                     normalize_path (path_str (fst (fst triple) ++ [file])))
                  (snd triple))
           (os_walk [] original_dir).

(** [verify_zip_contents(zip_path, original_dir)]: whether the names of
    the container and the normalised relative paths of the original files
    are the same set.  [None] is the exception of [ZipFile] on a file
    that cannot be opened. *)
Definition verify_zip_contents (zip_path : option container)
  (original_dir : tree) : option bool :=
  match zip_path with
  | None => None
  | Some zipf =>
      let zip_files := map fst zipf in
      let missing_files := set_diff (original_files original_dir) zip_files in
      let extra_files := set_diff zip_files (original_files original_dir) in
      Some (negb (match missing_files with [] => false | _ => true end
                  || match extra_files with [] => false | _ => true end))
  end.

(* ===================================================================== *)
(** * Notions used to state the properties *)
(* ===================================================================== *)

Definition is_lower_hex (c : ascii) : bool :=
  existsb (Ascii.eqb c) (list_ascii_of_string "0123456789abcdef").

(** The Portable Path of the file at relative path [rel_path]. *)
Definition portable_path (rel_path : path) : str :=
  normalize_path (path_str rel_path).

(** The relative paths of all regular files under a tree, entry by entry
    and depth first. *)
Fixpoint tree_files (prefix : path) (t : tree) : list path :=
  match t with
  | Leaf _ => [prefix]
  | Node entries =>
      (fix below (l : list (str * tree)) :=
         match l with
         | [] => []
         | (name, sub) :: l' => tree_files (prefix ++ [name]) sub ++ below l'
         end) entries
  end.

(** The relative paths of the files in the order of the two loops of
    [zip_folder]. *)
Definition visited (walk : list (path * list str * list str)) : list path :=
  flat_map (fun triple =>
              map (fun file => fst (fst triple) ++ [file]) (snd triple))
           walk.

Definition has_char (c : ascii) (s : str) : bool := existsb (Ascii.eqb c) s.

(** [s.count(c)] *)
Fixpoint str_count (c : ascii) (s : str) : nat :=
  match s with
  | [] => 0
  | c' :: rest => (if Ascii.eqb c' c then 1 else 0) + str_count c rest
  end.

(** A name that a directory entry can bear: not empty, without a slash,
    and neither of the two reserved names. *)
Definition valid_name (name : str) : bool :=
  negb (str_eqb name []) && negb (has_char slash name)
  && negb (str_eqb name (lit ".")) && negb (str_eqb name (lit "..")).

Fixpoint distinct (names : list str) : bool :=
  match names with
  | [] => true
  | n :: rest => negb (existsb (str_eqb n) rest) && distinct rest
  end.

(** A true hierarchy: in every directory the names are valid and
    pairwise distinct. *)
Fixpoint hierarchy (t : tree) : bool :=
  match t with
  | Leaf _ => true
  | Node entries =>
      forallb valid_name (map fst entries) && distinct (map fst entries)
      && (fix each (l : list (str * tree)) :=
            match l with
            | [] => true
            | (_, sub) :: l' => hierarchy sub && each l'
            end) entries
  end.

(** Every name of the tree passes the test [ok]. *)
Fixpoint all_names (ok : str -> bool) (t : tree) : bool :=
  match t with
  | Leaf _ => true
  | Node entries =>
      (fix each (l : list (str * tree)) :=
         match l with
         | [] => true
         | (name, sub) :: l' => ok name && all_names ok sub && each l'
         end) entries
  end.

(** No name of the tree holds a backslash. *)
Definition backslash_free (t : tree) : bool :=
  all_names (fun name => negb (has_char backslash name)) t.

(** Every regular file of the tree passes the test [ok]. *)
Fixpoint all_files (ok : file -> bool) (t : tree) : bool :=
  match t with
  | Leaf f => ok f
  | Node entries =>
      (fix each (l : list (str * tree)) :=
         match l with
         | [] => true
         | (_, sub) :: l' => all_files ok sub && each l'
         end) entries
  end.

Definition is_sound (f : file) : bool :=
  match file_condition f with
  | Sound => true
  | _ => false
  end.

(** No file of the tree fails. *)
Definition all_sound (t : tree) : bool := all_files is_sound t.

(** A name that a line of the manifest can carry: it holds no colon and
    no line break, and does not begin with white space. *)
Definition line_safe (name : str) : bool :=
  negb (has_char colon name) && negb (has_char newline name)
  && negb (has_char carriage_return name)
  && match name with
     | c :: _ => negb (is_space c)
     | [] => true
     end.

(** Every name of the tree can be carried by the manifest. *)
Definition manifest_safe (t : tree) : bool := all_names line_safe t.

(** A component without slash and without backslash. *)
Definition plain (c : str) : Prop :=
  has_char slash c = false /\ has_char backslash c = false.

(** The keys of a dictionary after an assignment to key [k]. *)
Definition keys_add (keys : list str) (k : str) : list str :=
  if existsb (fun k' => str_eqb k' k) keys then keys else keys ++ [k].

(** The reading of a manifest line that cuts at the first colon only:
    the text before it and the whole remainder. *)
Fixpoint split_first_colon (line : str) : option (str * str) :=
  match line with
  | [] => None
  | c :: rest =>
      if Ascii.eqb c colon then Some ([], rest)
      else match split_first_colon rest with
           | Some (before, after) => Some (c :: before, after)
           | None => None
           end
  end.

(** The member names of a container. *)
Definition namelist (zipf : container) : list str := map fst zipf.

(** What a line of the manifest must be made of to be read back. *)
Definition key_ok (k : str) : Prop :=
  has_char colon k = false /\ has_char newline k = false
  /\ has_char carriage_return k = false
  /\ match k with
     | c :: _ => is_space c = false
     | [] => True
     end.

Definition digest_ok (v : str) : Prop :=
  v <> [] /\ forallb is_lower_hex v = true.

(** A name that is valid, holds no backslash and can be carried by a
    line of the manifest. *)
Definition safe_name (name : str) : bool :=
  valid_name name && negb (has_char backslash name) && line_safe name.

(** A relative path of at least one component, all of them valid names
    without backslash. *)
Definition named_path (p : path) : Prop :=
  p <> []
  /\ Forall (fun c => valid_name c = true /\ has_char backslash c = false) p.

(** A relative path of at least one component, all of them safe. *)
Definition good_path (p : path) : Prop :=
  p <> [] /\ Forall (fun c => safe_name c = true) p.

(** The paths that do not stop the run: a named path at which a sound
    file stands. *)
Definition archivable (source : tree) (p : path) : Prop :=
  named_path p
  /\ exists data, fs_lookup source p = RegularFile (File data Sound).

(** What holds of the manifest and the container while every file so far
    was digested and stored: the keys are distinct, and under every key
    the container holds, intact, a payload that has the recorded
    digest. *)
Definition consistent (st : zstate) : Prop :=
  NoDup (dict_keys (file_hashes st))
  /\ forall k v : str,
       dict_get (file_hashes st) k = Some v ->
       key_ok k /\ ends_with_slash k = false
       /\ exists data : bytes,
            getinfo (zipf st) k = Some (Member data true)
            /\ v = SHA256.hexdigest_of data.

(** The content read at a path of the source tree, empty when nothing
    can be read there. *)
Definition data_at (source : tree) (p : path) : bytes :=
  match open_rb (fs_lookup source p) with
  | Some content => content
  | None => []
  end.

(** The manifest entry and the container member of the file at a path. *)
Definition manifest_entry (source : tree) (p : path) : str * str :=
  (portable_path p, SHA256.hexdigest_of (data_at source p)).

Definition stored_member (source : tree) (p : path) : str * member :=
  (portable_path p, Member (data_at source p) true).

(** The dictionary after the assignments made for a list of paths, in
    order. *)
Definition assign_all (source : tree) (d : dict) (ps : list path) : dict :=
  fold_left (fun d p => dict_set d (portable_path p)
                          (SHA256.hexdigest_of (data_at source p)))
            ps d.

(** A file on which [ZipFile.write] raises nothing but [OSError]. *)
Definition io_errors_only (f : file) : bool :=
  match file_condition f with
  | BadTimestamp => false
  | _ => true
  end.

(** Every member of the container is listed in the manifest. *)
Definition members_listed (st : zstate) : Prop :=
  incl (map fst (zipf st)) (dict_keys (file_hashes st)).

(** The paths that cannot stop the run: a named path at which a file
    stands that raises nothing but [OSError]. *)
Definition survivable (source : tree) (p : path) : Prop :=
  named_path p
  /\ exists f, fs_lookup source p = RegularFile f /\ io_errors_only f = true.

(* ===================================================================== *)
(** * Sample inputs *)
(* ===================================================================== *)

Definition hello : bytes := bytes_of_str (lit "hello").
Definition world : bytes := bytes_of_str (lit "world").

(** SHA-256 of [hello] and of [world]. *)
Definition hello_digest : str :=
  lit "2cf24dba5fb0a30e26e83b2ac5b9e29e1b161e5c1fa7425e73043362938b9824".
Definition world_digest : str :=
  lit "486ea46224d1bb4fb680f34f7c9ad96a8f24ec88be73ea8e5a6c65260e9cb8a7".

(** Both output files can be written, and neither exists yet. *)
Definition fair_env : env := Env true true.
Definition empty_disk : disk := Disk None None.

(** [small.txt] and [sub/nested.txt]. *)
Definition sample_tree : list (str * tree) :=
  [ (lit "small.txt", Leaf (File hello Sound));
    (lit "sub", Node [ (lit "nested.txt", Leaf (File world Sound)) ]) ].

(** A file whose name holds a backslash, next to a directory [a] with a
    file [b]; both names are legal on a POSIX file system. *)
Definition colliding_tree : tree :=
  Node [ (lit "a\b", Leaf (File hello Sound));
         (lit "a", Node [ (lit "b", Leaf (File world Sound)) ]) ].

(** One file whose name holds a colon, legal on a POSIX file system. *)
Definition colon_tree : tree :=
  Node [ (lit "notes:draft.txt", Leaf (File hello Sound)) ].

(** A file that is lost between its digest and its addition, followed by
    a sound one. *)
Definition lossy_tree : tree :=
  Node [ (lit "lost.txt", Leaf (File hello LostBeforeAdd));
         (lit "kept.txt", Leaf (File world Sound)) ].

(** A file whose time stamp [ZipFile.write] refuses, and a sound one. *)
Definition dated_tree : list (str * tree) :=
  [ (lit "old.txt", Leaf (File hello BadTimestamp));
    (lit "kept.txt", Leaf (File world Sound)) ].

(** Nested directories without any file. *)
Definition hollow_tree : list (str * tree) :=
  [ (lit "a", Node [ (lit "b", Node []) ]); (lit "c", Node []) ].

(** An unreadable file followed by a sound one. *)
Definition unreadable_tree : tree :=
  Node [ (lit "locked.txt", Leaf (File hello Unreadable));
         (lit "kept.txt", Leaf (File world Sound)) ].

(* ===================================================================== *)
(** * Basic facts on strings *)
(* ===================================================================== *)

(** Equal up to the bracketing of appends. *)
Ltac reassociate :=
  repeat rewrite <- app_assoc; simpl; repeat rewrite <- app_assoc;
  reflexivity.

Lemma str_eqb_eq (a b : str) : str_eqb a b = true <-> a = b.
Proof.
  unfold str_eqb. destruct (list_eq_dec ascii_dec a b); split; congruence.
Qed.

Lemma str_eqb_refl (a : str) : str_eqb a a = true.
Proof. apply str_eqb_eq. reflexivity. Qed.

Lemma str_eqb_neq (a b : str) : str_eqb a b = false <-> a <> b.
Proof.
  unfold str_eqb. destruct (list_eq_dec ascii_dec a b); split; congruence.
Qed.

Lemma has_char_In (c : ascii) (s : str) : has_char c s = true <-> In c s.
Proof.
  unfold has_char. rewrite existsb_exists. split.
  - intros [x [Hin Heq]]. apply Ascii.eqb_eq in Heq. subst. exact Hin.
  - intros Hin. exists c. split; [exact Hin | apply Ascii.eqb_refl].
Qed.

Lemma has_char_false (c : ascii) (s : str) :
  has_char c s = false <-> ~ In c s.
Proof.
  rewrite <- has_char_In. destruct (has_char c s); split; congruence.
Qed.

(* ===================================================================== *)
(** * Properties of the Path Normalizer *)
(* ===================================================================== *)

Lemma str_replace_map (old new : ascii) (s : str) :
  str_replace old new s = map (fun c => if Ascii.eqb c old then new else c) s.
Proof.
  induction s as [|c rest IH]; simpl; [reflexivity | now rewrite IH].
Qed.

Lemma str_replace_absent (old new : ascii) (s : str) :
  has_char old s = false -> str_replace old new s = s.
Proof.
  induction s as [|c rest IH]; simpl; intros H; [reflexivity|].
  apply orb_false_iff in H. destruct H as [Hc Hrest].
  rewrite Ascii.eqb_sym in Hc. rewrite Hc, (IH Hrest). reflexivity.
Qed.

Lemma str_replace_removes (old new : ascii) (s : str) :
  old <> new -> has_char old (str_replace old new s) = false.
Proof.
  intros Hne. induction s as [|c rest IH]; simpl; [reflexivity|].
  rewrite IH, orb_false_r.
  destruct (Ascii.eqb_spec c old) as [->|Hc].
  - apply Ascii.eqb_neq. exact Hne.
  - apply Ascii.eqb_neq. congruence.
Qed.

(** C8.  [normalize_path] maps every backslash of its argument to a
    forward slash and leaves every other character as it is, position by
    position: the result has the length of the argument, holds no
    backslash, and normalising it again changes nothing.  The paths
    [a\b\c.txt] and [a/b/c.txt] both become [a/b/c.txt]. *)
Theorem normalize_path_replaces_backslashes :
  (forall path : str,
      normalize_path path
      = map (fun c => if Ascii.eqb c backslash then slash else c) path
      /\ length (normalize_path path) = length path
      /\ has_char backslash (normalize_path path) = false
      /\ normalize_path (normalize_path path) = normalize_path path)
  /\ normalize_path (lit "a\b\c.txt") = lit "a/b/c.txt"
  /\ normalize_path (lit "a/b/c.txt") = lit "a/b/c.txt".
Proof.
  split; [|split; reflexivity].
  intros path. unfold normalize_path.
  assert (Hrm : has_char backslash (str_replace backslash slash path) = false)
    by (apply str_replace_removes; discriminate).
  repeat split.
  - apply str_replace_map.
  - rewrite str_replace_map. apply length_map.
  - exact Hrm.
  - apply str_replace_absent. exact Hrm.
Qed.

(* ===================================================================== *)
(** * Properties of the Digest Engine *)
(* ===================================================================== *)

Lemma update_new (data : bytes) :
  SHA256.update SHA256.new data = SHA256.HashObject data.
Proof. reflexivity. Qed.

Lemma update_update (h : SHA256.hash_object) (a b : bytes) :
  SHA256.update (SHA256.update h a) b = SHA256.update h (a ++ b).
Proof. unfold SHA256.update. simpl. now rewrite app_assoc. Qed.

Lemma update_empty (h : SHA256.hash_object) : SHA256.update h [] = h.
Proof. destruct h as [data]. unfold SHA256.update. simpl. now rewrite app_nil_r. Qed.

Lemma file_read_whole (size : Z) (rest : bytes) :
  fst (file_read size rest) ++ snd (file_read size rest) = rest.
Proof.
  unfold file_read. destruct (size <? 0)%Z; simpl.
  - apply app_nil_r.
  - apply firstn_skipn.
Qed.

Lemma file_read_eof (size : Z) (rest left : bytes) :
  size <> 0%Z -> file_read size rest = ([], left) -> rest = [].
Proof.
  unfold file_read. intros Hsize H.
  destruct (size <? 0)%Z eqn:Hneg.
  - now inversion H.
  - apply Z.ltb_ge in Hneg. injection H as Hchunk Hleft.
    destruct rest as [|b rest]; [reflexivity|].
    exfalso.
    assert (Hn : exists n, Z.to_nat (Z.min size (Z.of_nat (length (b :: rest)))) = S n).
    { exists (Nat.pred (Z.to_nat (Z.min size (Z.of_nat (length (b :: rest)))))).
      simpl length. lia. }
    destruct Hn as [n Hn]. rewrite Hn in Hchunk. discriminate Hchunk.
Qed.

(** The loop feeds the whole content, in order, to the hash object. *)
Lemma read_chunks_absorbs (chunk_size : Z) (h : SHA256.hash_object)
  (rest : bytes) :
  chunk_size <> 0%Z -> read_chunks chunk_size h rest = SHA256.update h rest.
Proof.
  intros Hsize. funelim (read_chunks chunk_size h rest).
  - pose proof e as Heof. apply file_read_eof in Heof; [|exact Hsize].
    rewrite Heof. symmetry. apply update_empty.
  - rewrite H by exact Hsize. rewrite update_update. f_equal.
    pose proof (file_read_whole chunk_size rest) as Hw.
    rewrite e in Hw. exact Hw.
Qed.

Lemma hex_digit_lower (d : Z) :
  (0 <= d < 16)%Z -> is_lower_hex (SHA256.hex_digit d) = true.
Proof.
  intros Hd. unfold SHA256.hex_digit.
  assert (Hn : Z.to_nat d < 16) by lia.
  remember (Z.to_nat d) as n eqn:E. clear E Hd.
  do 16 (destruct n as [|n]; [reflexivity|]). lia.
Qed.

Lemma hex_word_lower (x : Z) : forallb is_lower_hex (SHA256.hex_word x) = true.
Proof.
  apply forallb_forall. intros c Hin. unfold SHA256.hex_word in Hin.
  apply in_map_iff in Hin. destruct Hin as [i [<- _]].
  apply hex_digit_lower. apply Z.mod_pos_bound. lia.
Qed.

Lemma hex_words_shape (h : SHA256.words8) :
  length (SHA256.hex_words h) = 64
  /\ forallb is_lower_hex (SHA256.hex_words h) = true.
Proof.
  unfold SHA256.hex_words. split.
  - repeat rewrite length_app. reflexivity.
  - repeat rewrite forallb_app. repeat rewrite hex_word_lower. reflexivity.
Qed.

(** The digest of a file that opens, for any chunk size but zero. *)
Lemma compute_file_hash_readable (file_path : fs_object) (content : bytes)
  (chunk_size : Z) :
  open_rb file_path = Some content ->
  chunk_size <> 0%Z ->
  compute_file_hash file_path chunk_size = Some (SHA256.hexdigest_of content).
Proof.
  intros Hopen Hsize. unfold compute_file_hash. rewrite Hopen.
  rewrite read_chunks_absorbs by exact Hsize. reflexivity.
Qed.



(* ===================================================================== *)
(** * Properties of the Integrity Verifier *)
(* ===================================================================== *)

(** The loop succeeds exactly when every key passes its checks. *)
Lemma verify_entries_all (zipf : container) (original_hashes : dict)
  (keys : list str) :
  verify_entries zipf original_hashes keys = true
  <-> (forall file_path, In file_path keys ->
         verify_entry zipf original_hashes file_path = true).
Proof.
  induction keys as [|k rest IH]; simpl.
  - split; [intros _ p [] | reflexivity].
  - destruct (verify_entry zipf original_hashes k) eqn:Hk.
    + rewrite IH. split.
      * intros Hall p [<-|Hin]; [exact Hk | apply Hall; exact Hin].
      * intros Hall p Hin. apply Hall. right. exact Hin.
    + split; [discriminate|].
      intros Hall. rewrite <- Hk. apply Hall. left. reflexivity.
Qed.

(** The four checks behind one successful entry. *)
Lemma verify_entry_checks (zipf : container) (original_hashes : dict)
  (file_path : str) :
  verify_entry zipf original_hashes file_path = true
  <-> exists (m : member) (extracted : fs_object) (digest : str),
        getinfo zipf file_path = Some m
        /\ zip_extract zipf file_path = Some extracted
        /\ compute_file_hash extracted CHUNK_SIZE = Some digest
        /\ dict_get original_hashes file_path = Some digest.
Proof.
  unfold verify_entry. split.
  - destruct (zip_extract zipf file_path) as [extracted|] eqn:Hx;
      [|discriminate].
    destruct (compute_file_hash extracted CHUNK_SIZE) as [digest|] eqn:Hh;
      [|discriminate].
    destruct (dict_get original_hashes file_path) as [recorded|] eqn:Hg;
      [|discriminate].
    destruct (str_eqb digest recorded) eqn:Heq; [|discriminate].
    intros _. apply str_eqb_eq in Heq. subst recorded.
    unfold zip_extract in Hx.
    destruct (getinfo zipf file_path) as [m|] eqn:Hm; [|discriminate].
    exists m, extracted, digest.
    repeat split; try reflexivity; assumption.
  - intros [m [extracted [digest [_ [Hx [Hh Hg]]]]]].
    rewrite Hx, Hh, Hg, str_eqb_refl. reflexivity.
Qed.


(** An entry that passes was stored intact under a name that is not a
    directory's, and its payload has the recorded digest. *)
Lemma verify_entry_payload (zipf : container) (original_hashes : dict)
  (file_path : str) :
  verify_entry zipf original_hashes file_path = true ->
  exists m : member,
    getinfo zipf file_path = Some m
    /\ intact m = true
    /\ dict_get original_hashes file_path
       = Some (SHA256.hexdigest_of (payload m)).
Proof.
  intros H. apply verify_entry_checks in H.
  destruct H as [m [extracted [digest [Hm [Hx [Hh Hg]]]]]].
  exists m. split; [exact Hm|].
  unfold zip_extract in Hx. rewrite Hm in Hx.
  destruct (ends_with_slash file_path).
  - injection Hx as <-. discriminate Hh.
  - destruct (intact m); [|discriminate].
    injection Hx as <-. split; [reflexivity|].
    rewrite Hg. f_equal.
    rewrite (compute_file_hash_readable
               (RegularFile (File (payload m) Sound)) (payload m) CHUNK_SIZE)
      in Hh; [|reflexivity | discriminate].
    injection Hh as <-. reflexivity.
Qed.

(** The checks of one entry read the container through [getinfo] at that
    entry's name only. *)
Lemma verify_entry_local (z1 z2 : container) (original_hashes : dict)
  (file_path : str) :
  getinfo z1 file_path = getinfo z2 file_path ->
  verify_entry z1 original_hashes file_path
  = verify_entry z2 original_hashes file_path.
Proof.
  intros H. unfold verify_entry, zip_extract. rewrite H. reflexivity.
Qed.

Lemma verify_entries_local (z1 z2 : container) (original_hashes : dict)
  (keys : list str) :
  (forall name, In name keys -> getinfo z1 name = getinfo z2 name) ->
  verify_entries z1 original_hashes keys
  = verify_entries z2 original_hashes keys.
Proof.
  induction keys as [|k rest IH]; intros Hagree; simpl; [reflexivity|].
  rewrite (verify_entry_local z1 z2 original_hashes k)
    by (apply Hagree; left; reflexivity).
  rewrite IH by (intros name Hin; apply Hagree; right; exact Hin).
  reflexivity.
Qed.

(** C7.  Two containers that hold the same member under every name listed
    in the manifest get the same verdict: the result of
    [verify_integrity] does not depend on members whose names the manifest
    does not list. *)
Theorem verify_integrity_listed_only (z1 z2 : container) (text : str) :
  (forall original_hashes : dict,
      read_manifest text = Some original_hashes ->
      forall name : str,
        In name (dict_keys original_hashes) ->
        getinfo z1 name = getinfo z2 name) ->
  verify_integrity (Some z1) (Some text)
  = verify_integrity (Some z2) (Some text).
Proof.
  intros Hagree. unfold verify_integrity.
  destruct (read_manifest text) as [original_hashes|] eqn:Hread;
    [|reflexivity].
  apply verify_entries_local. apply Hagree. reflexivity.
Qed.

Lemma getinfo_app_other (zipf : container) (name other : str) (m : member) :
  other <> name -> getinfo (zipf ++ [(other, m)]) name = getinfo zipf name.
Proof.
  intros Hne. induction zipf as [|[n m'] rest IH]; simpl.
  - apply str_eqb_neq in Hne. rewrite Hne. reflexivity.
  - rewrite IH. reflexivity.
Qed.

(** A member that the manifest does not list changes nothing, whatever it
    holds. *)
Corollary unlisted_member_ignored (zipf : container) (text : str)
  (other : str) (m : member) :
  (forall original_hashes : dict,
      read_manifest text = Some original_hashes ->
      ~ In other (dict_keys original_hashes)) ->
  verify_integrity (Some (zipf ++ [(other, m)])) (Some text)
  = verify_integrity (Some zipf) (Some text).
Proof.
  intros Hnot. unfold verify_integrity.
  destruct (read_manifest text) as [original_hashes|] eqn:Hread;
    [|reflexivity].
  apply verify_entries_local. intros name Hin.
  apply getinfo_app_other. intros ->. exact (Hnot _ eq_refl Hin).
Qed.

Lemma verify_integrity_listed_only_witness :
  let text : str := lit "small.txt:" ++ hello_digest ++ [newline] in
  let z1 : container := [(lit "small.txt", Member hello true)] in
  let z2 : container := [(lit "extra.bin", Member [] false);
                         (lit "small.txt", Member hello true)] in
  verify_integrity (Some z1) (Some text) = true
  /\ verify_integrity (Some z2) (Some text) = true.
Proof.
  intros text z1 z2.
  assert (H1 : verify_integrity (Some z1) (Some text) = true)
    by (vm_compute; reflexivity).
  split; [exact H1|].
  rewrite <- (verify_integrity_listed_only z1 z2 text); [exact H1|].
  intros original_hashes Hread name Hin.
  vm_compute in Hread. injection Hread as <-.
  simpl in Hin. destruct Hin as [<-|[]].
  vm_compute. reflexivity.
Defined.

(* ===================================================================== *)
(** * Properties of the command-line driver *)
(* ===================================================================== *)

(** C9.  When nothing exists at the source path, or what exists there is
    not a directory, [main] exits with status 1 and leaves the output
    files as they were: neither the container nor the manifest is
    created, and [zip_folder] is not run. *)
Theorem main_rejects_bad_source (args : arguments) (e : env) (d : disk) :
  (source_folder args = None
   \/ exists f : file, source_folder args = Some (Leaf f)) ->
  main args e d = (1%Z, d)
  /\ fst (main args e d) <> 0%Z
  /\ (container_file d = None ->
      container_file (snd (main args e d)) = None)
  /\ (manifest_file d = None ->
      manifest_file (snd (main args e d)) = None).
Proof.
  intros Hbad.
  assert (Hmain : main args e d = (1%Z, d)).
  { unfold main. destruct Hbad as [-> | [f ->]]; reflexivity. }
  rewrite Hmain. simpl.
  split; [reflexivity|]. split; [discriminate|]. split; intros H; exact H.
Qed.

Lemma main_rejects_bad_source_witness :
  main (Arguments_ None true) (Env true true) (Disk None None)
  = (1%Z, Disk None None).
Proof.
  apply (main_rejects_bad_source (Arguments_ None true) (Env true true)
           (Disk None None)).
  left. reflexivity.
Defined.

(* ===================================================================== *)
(** * Properties of the Manifest Reader *)
(* ===================================================================== *)

Lemma str_split_length (sep : ascii) (s : str) :
  length (str_split sep s) = S (str_count sep s).
Proof.
  induction s as [|c rest IH]; simpl; [reflexivity|].
  destruct (Ascii.eqb c sep); simpl.
  - now rewrite IH.
  - destruct (str_split sep rest) as [|field fields]; simpl in *; lia.
Qed.

Lemma str_count_zero (c : ascii) (s : str) :
  str_count c s = 0 <-> has_char c s = false.
Proof.
  induction s as [|c' rest IH]; simpl; [tauto|].
  rewrite (Ascii.eqb_sym c c').
  destruct (Ascii.eqb c' c); simpl.
  - split; discriminate.
  - exact IH.
Qed.

Lemma str_split_absent (sep : ascii) (s : str) :
  has_char sep s = false -> str_split sep s = [s].
Proof.
  induction s as [|c rest IH]; simpl; intros H; [reflexivity|].
  apply orb_false_iff in H. destruct H as [Hc Hrest].
  rewrite Ascii.eqb_sym in Hc. rewrite Hc, (IH Hrest). reflexivity.
Qed.

Lemma str_split_app (sep : ascii) (before after : str) :
  has_char sep before = false ->
  str_split sep (before ++ sep :: after) = before :: str_split sep after.
Proof.
  induction before as [|c rest IH]; simpl; intros H.
  - rewrite Ascii.eqb_refl. reflexivity.
  - apply orb_false_iff in H. destruct H as [Hc Hrest].
    rewrite Ascii.eqb_sym in Hc. rewrite Hc, (IH Hrest). reflexivity.
Qed.

Lemma str_split_one (sep : ascii) (s field : str) :
  str_split sep s = [field] -> s = field /\ has_char sep s = false.
Proof.
  intros H.
  assert (Hc : str_count sep s = 0).
  { pose proof (str_split_length sep s) as L. rewrite H in L. simpl in L. lia. }
  apply str_count_zero in Hc. rewrite (str_split_absent _ _ Hc) in H.
  injection H as ->. split; [reflexivity | exact Hc].
Qed.

Lemma str_split_two (sep : ascii) (s before after : str) :
  str_split sep s = [before; after]
  <-> s = before ++ sep :: after
      /\ has_char sep before = false /\ has_char sep after = false.
Proof.
  split.
  - revert before. induction s as [|c rest IH]; simpl; intros before H.
    + discriminate.
    + destruct (Ascii.eqb_spec c sep) as [->|Hc].
      * injection H as <- H. apply str_split_one in H. destruct H as [-> H].
        split; [reflexivity|]. split; [reflexivity | exact H].
      * destruct (str_split sep rest) as [|field fields] eqn:Hs;
          [discriminate|].
        injection H as <- ->. destruct (IH field eq_refl) as [-> [Hb Ha]].
        split; [reflexivity|]. split; [|exact Ha].
        simpl. rewrite Hb, orb_false_r.
        apply Ascii.eqb_neq. congruence.
  - intros [-> [Hb Ha]]. rewrite (str_split_app _ _ _ Hb).
    rewrite (str_split_absent _ _ Ha). reflexivity.
Qed.

Lemma parse_line_some (line file_path file_hash : str) :
  parse_line line = Some (file_path, file_hash)
  <-> str_split colon (str_strip line) = [file_path; file_hash].
Proof.
  unfold parse_line.
  destruct (str_split colon (str_strip line)) as [|a [|b [|c rest]]];
    split; intros H; try discriminate; congruence.
Qed.

Lemma parse_line_none (line : str) :
  parse_line line = None <-> str_count colon (str_strip line) <> 1.
Proof.
  unfold parse_line.
  pose proof (str_split_length colon (str_strip line)) as L.
  destruct (str_split colon (str_strip line)) as [|a [|b [|c rest]]];
    simpl in L; split; intros H; try discriminate; try reflexivity; lia.
Qed.

Lemma read_lines_none (lines : list str) (acc : dict) :
  read_lines lines acc = None
  <-> exists line, In line lines /\ parse_line line = None.
Proof.
  revert acc. induction lines as [|line rest IH]; intros acc; simpl.
  - split; [discriminate | intros [l [[] _]]].
  - destruct (parse_line line) as [[file_path file_hash]|] eqn:Hp.
    + rewrite IH. split.
      * intros [l [Hin Hl]]. exists l. split; [right; exact Hin | exact Hl].
      * intros [l [[<-|Hin] Hl]]; [congruence|].
        exists l. split; assumption.
    + split; [|reflexivity]. intros _. exists line.
      split; [left; reflexivity | exact Hp].
Qed.

(** C4, as the code has it.  The reader strips the white space around a
    line and cuts it at every colon.  A line is accepted exactly when it
    then holds one colon: the text before the colon is the path and the
    text after it is the digest.  A line with no colon or with more than
    one colon is rejected, and one rejected line makes the whole manifest
    unreadable. *)
Theorem manifest_reader_needs_exactly_one_colon :
  (forall line file_path file_hash : str,
      parse_line line = Some (file_path, file_hash)
      <-> str_strip line = file_path ++ colon :: file_hash
          /\ has_char colon file_path = false
          /\ has_char colon file_hash = false)
  /\ (forall line : str,
         parse_line line = None <-> str_count colon (str_strip line) <> 1)
  /\ (forall text : str,
         read_manifest text = None
         <-> exists line : str,
               In line (file_lines text)
               /\ str_count colon (str_strip line) <> 1).
Proof.
  split; [|split].
  - intros line file_path file_hash.
    rewrite parse_line_some. apply str_split_two.
  - apply parse_line_none.
  - intros text. unfold read_manifest. rewrite read_lines_none.
    split; intros [line [Hin H]]; exists line; split; try exact Hin;
      apply parse_line_none; exact H.
Qed.

(** C4, as stated, fails: this line holds colons, cutting at the first one
    reads it as the path [docs] with the remainder as digest, and the
    reader rejects it and, with it, the manifest. *)
Lemma manifest_line_with_two_colons_rejected :
  let line := lit "docs:v2.txt:abc123" in
  has_char colon line = true
  /\ split_first_colon line = Some (lit "docs", lit "v2.txt:abc123")
  /\ parse_line line = None
  /\ read_manifest line = None.
Proof. vm_compute. repeat split; reflexivity. Qed.

(* ===================================================================== *)
(** * Properties of the traversal *)
(* ===================================================================== *)

(** Induction on trees, with the hypothesis for every entry of a
    directory. *)
Lemma tree_induction (P : tree -> Prop) :
  (forall f, P (Leaf f)) ->
  (forall entries, (forall e, In e entries -> P (snd e)) -> P (Node entries)) ->
  forall t, P t.
Proof.
  intros HLeaf HNode. fix IH 1. intros [f|entries]; [apply HLeaf|].
  apply HNode.
  induction entries as [|[name sub] rest IHrest]; intros e Hin.
  - destruct Hin.
  - destruct Hin as [<-|Hin]; [apply IH | apply IHrest; exact Hin].
Qed.

Lemma os_walk_node (top : path) (entries : list (str * tree)) :
  os_walk top (Node entries)
  = (top, dirnames entries, filenames entries)
    :: flat_map (fun e => os_walk (top ++ [fst e]) (snd e)) entries.
Proof.
  simpl. f_equal.
  induction entries as [|[name sub] rest IH]; simpl;
    [reflexivity | now rewrite IH].
Qed.

Lemma tree_files_node (prefix : path) (entries : list (str * tree)) :
  tree_files prefix (Node entries)
  = flat_map (fun e => tree_files (prefix ++ [fst e]) (snd e)) entries.
Proof.
  simpl.
  induction entries as [|[name sub] rest IH]; simpl;
    [reflexivity | now rewrite IH].
Qed.

Lemma hierarchy_node (entries : list (str * tree)) :
  hierarchy (Node entries)
  = forallb valid_name (map fst entries) && distinct (map fst entries)
    && forallb (fun e => hierarchy (snd e)) entries.
Proof.
  simpl. f_equal.
  induction entries as [|[name sub] rest IH]; simpl;
    [reflexivity | now rewrite IH].
Qed.

Lemma all_names_node (ok : str -> bool) (entries : list (str * tree)) :
  all_names ok (Node entries)
  = forallb (fun e => ok (fst e) && all_names ok (snd e)) entries.
Proof.
  simpl.
  induction entries as [|[name sub] rest IH]; simpl;
    [reflexivity | now rewrite IH].
Qed.

Lemma visited_app (w1 w2 : list (path * list str * list str)) :
  visited (w1 ++ w2) = visited w1 ++ visited w2.
Proof. apply flat_map_app. Qed.

(** The two loops visit every regular file under the directory once:
    the paths they build are the files of the tree, in another order. *)
Lemma visited_os_walk (t : tree) :
  forall top : path,
    Permutation (visited (os_walk top t))
                (if is_dir t then tree_files top t else []).
Proof.
  induction t as [f|entries IH] using tree_induction; intros top.
  - simpl. constructor.
  - rewrite os_walk_node, tree_files_node. cbn [is_dir visited flat_map fst snd].
    fold (visited (flat_map (fun e => os_walk (top ++ [fst e]) (snd e)) entries)).
    induction entries as [|[name sub] rest IHrest].
    + simpl. constructor.
    + assert (Hrest : forall e, In e rest ->
                forall top0, Permutation (visited (os_walk top0 (snd e)))
                  (if is_dir (snd e) then tree_files top0 (snd e) else []))
        by (intros e Hin; apply IH; right; exact Hin).
      specialize (IHrest Hrest).
      pose proof (IH (name, sub) (or_introl eq_refl) (top ++ [name])) as Hsub.
      cbn [snd] in Hsub.
      cbn [flat_map fst snd]. rewrite visited_app.
      destruct sub as [f|sub_entries].
      * unfold filenames in *. cbn [filter snd is_dir negb map fst].
        cbn [os_walk visited flat_map tree_files app].
        apply perm_skip. exact IHrest.
      * unfold filenames in *. cbn [filter snd is_dir negb].
        cbn [is_dir] in Hsub.
        etransitivity; [apply Permutation_app_swap_app|].
        apply Permutation_app; [exact Hsub | exact IHrest].
Qed.

(** Every file of a tree lies below the prefix it was listed from. *)
Lemma tree_files_prefix (t : tree) :
  forall (prefix p : path),
    In p (tree_files prefix t) -> exists q, p = prefix ++ q.
Proof.
  induction t as [f|entries IH] using tree_induction; intros prefix p Hin.
  - destruct Hin as [<-|[]]. exists []. now rewrite app_nil_r.
  - rewrite tree_files_node in Hin. apply in_flat_map in Hin.
    destruct Hin as [e [He Hp]].
    destruct (IH e He _ _ Hp) as [q ->].
    exists (fst e :: q). now rewrite <- app_assoc.
Qed.

Lemma existsb_str_eqb (k : str) (l : list str) :
  existsb (str_eqb k) l = true <-> In k l.
Proof.
  rewrite existsb_exists. split.
  - intros [x [Hin Heq]]. apply str_eqb_eq in Heq. subst. exact Hin.
  - intros Hin. exists k. split; [exact Hin | apply str_eqb_refl].
Qed.

Lemma distinct_NoDup (names : list str) :
  distinct names = true -> NoDup names.
Proof.
  induction names as [|n rest IH]; simpl; intros H; constructor.
  - apply andb_true_iff in H. destruct H as [H _].
    apply negb_true_iff in H. intros Hin.
    apply existsb_str_eqb in Hin. congruence.
  - apply IH. apply andb_true_iff in H. tauto.
Qed.

(** In a true hierarchy no relative path is listed twice. *)
Lemma tree_files_NoDup (t : tree) :
  hierarchy t = true -> forall prefix : path, NoDup (tree_files prefix t).
Proof.
  induction t as [f|entries IH] using tree_induction; intros Hh prefix.
  - simpl. constructor; [intros [] | constructor].
  - rewrite tree_files_node. rewrite hierarchy_node in Hh.
    apply andb_true_iff in Hh. destruct Hh as [Hh Hsubs].
    apply andb_true_iff in Hh. destruct Hh as [_ Hdist].
    apply distinct_NoDup in Hdist.
    induction entries as [|[name sub] rest IHrest]; simpl; [constructor|].
    simpl in Hsubs. apply andb_true_iff in Hsubs. destruct Hsubs as [Hsub Hsubs].
    simpl in Hdist. inversion Hdist as [|? ? Hfresh Hdist']; subst.
    apply NoDup_app.
    + apply (IH (name, sub)); [left; reflexivity | exact Hsub].
    + apply IHrest; [|exact Hdist' | exact Hsubs].
      intros e Hin. apply IH. right. exact Hin.
    + intros p Hp Hq. apply in_flat_map in Hq. destruct Hq as [e [He Hq]].
      apply tree_files_prefix in Hp. apply tree_files_prefix in Hq.
      destruct Hp as [q1 ->]. destruct Hq as [q2 Heq].
      rewrite <- !app_assoc in Heq. apply app_inv_head in Heq.
      simpl in Heq. injection Heq as Hname _.
      apply Hfresh. rewrite Hname. apply in_map. exact He.
Qed.

Lemma valid_name_no_slash (name : str) :
  valid_name name = true -> has_char slash name = false.
Proof.
  unfold valid_name. intros H.
  repeat (apply andb_true_iff in H; destruct H as [H ?]).
  apply negb_true_iff. assumption.
Qed.

(** The files of a hierarchy without backslashes have plain components,
    and at least one below a directory. *)
Lemma tree_files_plain (t : tree) :
  hierarchy t = true -> backslash_free t = true ->
  forall prefix p : path,
    In p (tree_files prefix t) ->
    exists q, p = prefix ++ q /\ Forall plain q
              /\ (is_dir t = true -> q <> []).
Proof.
  induction t as [f|entries IH] using tree_induction;
    intros Hh Hb prefix p Hin.
  - destruct Hin as [<-|[]]. exists []. rewrite app_nil_r.
    split; [reflexivity|]. split; [constructor | discriminate].
  - rewrite tree_files_node in Hin. apply in_flat_map in Hin.
    destruct Hin as [e [He Hp]].
    rewrite hierarchy_node in Hh.
    unfold backslash_free in Hb. rewrite all_names_node in Hb.
    apply andb_true_iff in Hh. destruct Hh as [Hh Hsubs].
    apply andb_true_iff in Hh. destruct Hh as [Hvalid _].
    rewrite forallb_forall in Hvalid, Hsubs, Hb.
    specialize (Hsubs e He). specialize (Hb e He).
    specialize (Hvalid (fst e) (in_map fst _ _ He)).
    apply andb_true_iff in Hb. destruct Hb as [Hbname Hbsub].
    destruct (IH e He Hsubs Hbsub _ _ Hp) as [q [-> [Hq _]]].
    exists (fst e :: q). rewrite <- app_assoc.
    split; [reflexivity|]. split; [|discriminate].
    constructor; [|exact Hq]. split.
    + apply valid_name_no_slash. exact Hvalid.
    + apply negb_true_iff. exact Hbname.
Qed.

(* ===================================================================== *)
(** * Portable paths of plain components *)
(* ===================================================================== *)

Lemma has_char_app (c : ascii) (a b : str) :
  has_char c (a ++ b) = has_char c a || has_char c b.
Proof. apply existsb_app. Qed.

Lemma str_join_no_backslash (p : path) :
  Forall plain p -> has_char backslash (str_join [slash] p) = false.
Proof.
  induction 1 as [|c rest [_ Hc] _ IH]; [reflexivity|].
  destruct rest as [|c2 rest]; [exact Hc|].
  change (str_join [slash] (c :: c2 :: rest))
    with (c ++ [slash] ++ str_join [slash] (c2 :: rest)).
  rewrite !has_char_app, Hc, IH. reflexivity.
Qed.

Lemma str_split_join (p : path) :
  p <> [] -> Forall plain p -> str_split slash (str_join [slash] p) = p.
Proof.
  intros Hne Hp. induction Hp as [|c rest [Hc _] Hrest IH]; [congruence|].
  destruct rest as [|c2 rest].
  - simpl. apply str_split_absent. exact Hc.
  - change (str_join [slash] (c :: c2 :: rest))
      with (c ++ slash :: str_join [slash] (c2 :: rest)).
    rewrite (str_split_app _ _ _ Hc). f_equal. apply IH. discriminate.
Qed.

Lemma portable_path_plain (p : path) :
  p <> [] -> Forall plain p -> portable_path p = str_join [slash] p.
Proof.
  intros Hne Hp. unfold portable_path, normalize_path.
  destruct p as [|c rest]; [congruence|].
  cbn [path_str]. apply str_replace_absent.
  apply str_join_no_backslash. exact Hp.
Qed.

(** Distinct paths of plain components have distinct Portable Paths. *)
Lemma portable_path_inj (p q : path) :
  p <> [] -> q <> [] -> Forall plain p -> Forall plain q ->
  portable_path p = portable_path q -> p = q.
Proof.
  intros Hp Hq Fp Fq Heq.
  rewrite (portable_path_plain p Hp Fp), (portable_path_plain q Hq Fq) in Heq.
  rewrite <- (str_split_join p Hp Fp), <- (str_split_join q Hq Fq).
  now rewrite Heq.
Qed.

(* ===================================================================== *)
(** * Properties of the Archive Builder *)
(* ===================================================================== *)

Lemma dict_keys_set (d : dict) (k v : str) :
  dict_keys (dict_set d k v) = keys_add (dict_keys d) k.
Proof.
  unfold keys_add. induction d as [|[k' v'] rest IH]; simpl; [reflexivity|].
  destruct (str_eqb k' k); simpl; [reflexivity|].
  rewrite IH. unfold dict_keys.
  destruct (existsb (fun k'0 => str_eqb k'0 k) (map fst rest)); reflexivity.
Qed.

Lemma keys_add_fresh (keys : list str) (k : str) :
  ~ In k keys -> keys_add keys k = keys ++ [k].
Proof.
  intros Hfresh. unfold keys_add.
  destruct (existsb (fun k' => str_eqb k' k) keys) eqn:E; [|reflexivity].
  exfalso. apply Hfresh. apply existsb_exists in E.
  destruct E as [x [Hin Heq]]. apply str_eqb_eq in Heq. subst. exact Hin.
Qed.

Lemma fold_keys_add_fresh (new keys : list str) :
  NoDup (keys ++ new) -> fold_left keys_add new keys = keys ++ new.
Proof.
  revert keys. induction new as [|k rest IH]; intros keys Hnd; simpl.
  - now rewrite app_nil_r.
  - rewrite keys_add_fresh.
    + rewrite IH; rewrite <- app_assoc; [reflexivity | exact Hnd].
    + apply NoDup_remove_2 in Hnd. intros Hin. apply Hnd.
      apply in_or_app. left. exact Hin.
Qed.

(** A file after which [success] still holds was digested and stored,
    and its Portable Path became a key. *)
Lemma process_file_success (source : tree) (root : path) (file : str)
  (st st' : zstate) :
  process_file source root file st = Continue st' ->
  success st' = true ->
  success st = true
  /\ dict_keys (file_hashes st')
     = keys_add (dict_keys (file_hashes st)) (portable_path (root ++ [file])).
Proof.
  unfold process_file. fold (portable_path (root ++ [file])).
  destruct (compute_file_hash (fs_lookup source (root ++ [file])) CHUNK_SIZE)
    as [file_hash|].
  - destruct (zip_write (zipf st) (fs_lookup source (root ++ [file]))
                (portable_path (root ++ [file]))) as [zipf'|[|]];
      intros H Hs; inversion H; subst; simpl in *; try discriminate.
    split; [exact Hs | apply dict_keys_set].
  - intros H Hs. inversion H; subst. discriminate Hs.
Qed.

Lemma process_files_success (source : tree) (root : path)
  (files : list str) :
  forall st st' : zstate,
    process_files source root files st = Continue st' ->
    success st' = true ->
    success st = true
    /\ dict_keys (file_hashes st')
       = fold_left keys_add
           (map (fun file => portable_path (root ++ [file])) files)
           (dict_keys (file_hashes st)).
Proof.
  induction files as [|file rest IH]; intros st st' H Hs; simpl in *.
  - inversion H; subst. split; [exact Hs | reflexivity].
  - destruct (process_file source root file st) as [st1|st1] eqn:H1;
      [|discriminate].
    destruct (IH st1 st' H Hs) as [Hs1 Hkeys].
    destruct (process_file_success _ _ _ _ _ H1 Hs1) as [Hs0 Hk1].
    split; [exact Hs0|]. rewrite Hkeys, Hk1. reflexivity.
Qed.

Lemma process_walk_success (source : tree)
  (walk : list (path * list str * list str)) :
  forall st st' : zstate,
    process_walk source walk st = Continue st' ->
    success st' = true ->
    success st = true
    /\ dict_keys (file_hashes st')
       = fold_left keys_add (map portable_path (visited walk))
           (dict_keys (file_hashes st)).
Proof.
  induction walk as [|[[root dirs] files] rest IH]; intros st st' H Hs;
    simpl in *.
  - inversion H; subst. split; [exact Hs | reflexivity].
  - destruct (process_files source root files st) as [st1|st1] eqn:H1;
      [|discriminate].
    destruct (IH st1 st' H Hs) as [Hs1 Hkeys].
    destruct (process_files_success _ _ _ _ _ H1 Hs1) as [Hs0 Hk1].
    split; [exact Hs0|].
    rewrite map_app, fold_left_app, map_map, <- Hk1. exact Hkeys.
Qed.

(** A file whose digest cannot be computed changes neither the manifest
    nor the container; the run is marked as failed and goes on. *)
Lemma process_file_digest_failure (source : tree) (root : path) (file : str)
  (st : zstate) :
  compute_file_hash (fs_lookup source (root ++ [file])) CHUNK_SIZE = None ->
  process_file source root file st
  = Continue (ZState (file_hashes st) (zipf st) false).
Proof. intros H. unfold process_file. rewrite H. reflexivity. Qed.

(** A file that is digested and whose addition raises [OSError] leaves
    the container as it was and its digest in the manifest; the run is
    marked as failed and goes on. *)
Lemma process_file_add_failure (source : tree) (root : path) (file : str)
  (st : zstate) (file_hash : str) :
  compute_file_hash (fs_lookup source (root ++ [file])) CHUNK_SIZE
  = Some file_hash ->
  zip_write (zipf st) (fs_lookup source (root ++ [file]))
    (portable_path (root ++ [file])) = inr OSError ->
  process_file source root file st
  = Continue (ZState (dict_set (file_hashes st)
                        (portable_path (root ++ [file])) file_hash)
                     (zipf st) false).
Proof.
  intros Hh Hw. unfold process_file. fold (portable_path (root ++ [file])).
  rewrite Hh, Hw. reflexivity.
Qed.

(** When both output files can be written and no exception reaches the
    outer handler, [zip_folder] writes the manifest of the dictionary it
    returns, whatever the success flag. *)
Lemma zip_folder_writes_manifest (e : env) (source : tree) (d : disk)
  (st : zstate) :
  can_create_zip e = true -> can_write_log e = true ->
  process_walk source (os_walk [] source) (ZState [] [] true) = Continue st ->
  zip_folder e source d
  = ((success st, file_hashes st),
     Disk (Some (zipf st)) (Some (write_manifest (file_hashes st)))).
Proof.
  intros Hz Hl Hw. unfold zip_folder. rewrite Hz, Hw, Hl. reflexivity.
Qed.

(** The run on a tree with an unreadable file: the file is in neither
    output, the flag is [False], the next file is processed. *)
Lemma digest_failure_excluded :
  let run := zip_folder fair_env unreadable_tree empty_disk in
  fst run = (false, [(lit "kept.txt", world_digest)])
  /\ container_file (snd run) = Some [(lit "kept.txt", Member world true)]
  /\ manifest_file (snd run)
     = Some (lit "kept.txt:" ++ world_digest ++ [newline]).
Proof. vm_compute. repeat split; reflexivity. Qed.

(** What a run that reports success has done. *)
Lemma zip_folder_success (e : env) (source : tree) (d d' : disk)
  (hashes : dict) :
  zip_folder e source d = ((true, hashes), d') ->
  exists st : zstate,
    process_walk source (os_walk [] source) (ZState [] [] true) = Continue st
    /\ success st = true
    /\ hashes = file_hashes st
    /\ d' = Disk (Some (zipf st)) (Some (write_manifest hashes)).
Proof.
  unfold zip_folder.
  destruct (can_create_zip e); simpl; [|discriminate].
  destruct (process_walk source (os_walk [] source) (ZState [] [] true))
    as [st|st]; [|discriminate].
  destruct (can_write_log e); simpl; [|discriminate].
  intros H. injection H as Hs Hh Hd. exists st. subst. auto.
Qed.




(** C1: a fresh archive that fails its own verification.  The tree is a
    true hierarchy without backslashes, [zip_folder] reports success, and
    [verify_integrity] on the untouched container and manifest returns
    [False]: the line written for the file holds two colons and the reader
    rejects it. *)
Lemma fresh_archive_fails_verification :
  let run := zip_folder fair_env colon_tree empty_disk in
  hierarchy colon_tree = true
  /\ backslash_free colon_tree = true
  /\ fst (fst run) = true
  /\ manifest_file (snd run)
     = Some (lit "notes:draft.txt:" ++ hello_digest ++ [newline])
  /\ verify_integrity (container_file (snd run)) (manifest_file (snd run))
     = false.
Proof. vm_compute. repeat split; reflexivity. Qed.

(** C2: a file whose addition fails stays in the manifest.  [lost.txt] is
    digested, [ZipFile.write] raises [OSError] on it, the run goes on with
    [kept.txt] and reports failure; the container holds [kept.txt] only,
    and the manifest returned has a key for [lost.txt]. *)
Lemma add_failure_stays_in_manifest :
  let run := zip_folder fair_env lossy_tree empty_disk in
  fst (fst run) = false
  /\ container_file (snd run) = Some [(lit "kept.txt", Member world true)]
  /\ snd (fst run)
     = [(lit "lost.txt", hello_digest); (lit "kept.txt", world_digest)]
  /\ dict_get (snd (fst run)) (lit "lost.txt") = Some hello_digest.
Proof. vm_compute. repeat split; reflexivity. Qed.

(** C10: the manifest written after a failed addition has a line for a
    file that was not stored: two lines on disk, one member in the
    container. *)
Lemma manifest_lists_unstored_file :
  let run := zip_folder fair_env lossy_tree empty_disk in
  fst (fst run) = false
  /\ manifest_file (snd run)
     = Some (lit "lost.txt:" ++ hello_digest ++ [newline]
             ++ lit "kept.txt:" ++ world_digest ++ [newline])
  /\ manifest_file (snd run) = Some (write_manifest (snd (fst run)))
  /\ option_map namelist (container_file (snd run)) = Some [lit "kept.txt"].
Proof. vm_compute. repeat split; reflexivity. Qed.

(* ===================================================================== *)
(** * Reading back a written manifest *)
(* ===================================================================== *)

Lemma lower_hex_cases (c : ascii) :
  is_lower_hex c = true ->
  is_space c = false /\ c <> colon /\ c <> newline /\ c <> carriage_return.
Proof.
  unfold is_lower_hex. simpl. intros H.
  repeat (apply orb_prop in H; destruct H as [H|H]);
    try discriminate H;
    apply Ascii.eqb_eq in H; subst c; repeat split; discriminate.
Qed.

Lemma lower_hex_no_char (c : ascii) (v : str) :
  is_lower_hex c = false -> forallb is_lower_hex v = true ->
  has_char c v = false.
Proof.
  intros Hc Hv. apply has_char_false. intros Hin.
  rewrite forallb_forall in Hv. rewrite (Hv c Hin) in Hc. discriminate Hc.
Qed.

Lemma file_lines_first (body rest : str) :
  has_char newline body = false ->
  has_char carriage_return body = false ->
  file_lines (body ++ newline :: rest) = (body ++ [newline]) :: file_lines rest.
Proof.
  induction body as [|c body IH]; intros Hn Hr.
  - reflexivity.
  - cbn [has_char existsb] in Hn, Hr. apply orb_false_iff in Hn, Hr.
    destruct Hn as [Hn Hn'], Hr as [Hr Hr'].
    rewrite Ascii.eqb_sym in Hn. rewrite Ascii.eqb_sym in Hr.
    cbn [app file_lines]. rewrite Hn, Hr, (IH Hn' Hr'). reflexivity.
Qed.

Lemma str_rstrip_snoc (s : str) (c : ascii) :
  str_rstrip (s ++ [c])
  = if is_space c then str_rstrip s else s ++ [c].
Proof.
  unfold str_rstrip. rewrite rev_app_distr. simpl.
  destruct (is_space c); [reflexivity|].
  simpl. now rewrite rev_involutive.
Qed.

(** Stripping a written line gives back what stands before the line
    feed, when that begins and ends with characters other than white
    space. *)
Lemma str_strip_line (first last_ : ascii) (middle : str) :
  is_space first = false -> is_space last_ = false ->
  str_strip (first :: middle ++ [last_; newline])
  = first :: middle ++ [last_].
Proof.
  intros Hf Hl. unfold str_strip. cbn [str_lstrip]. rewrite Hf.
  replace (first :: middle ++ [last_; newline])
    with (((first :: middle) ++ [last_]) ++ [newline])
    by reassociate.
  rewrite str_rstrip_snoc. change (is_space newline) with true. cbn iota.
  rewrite str_rstrip_snoc, Hl. reflexivity.
Qed.

Lemma parse_written_line (k v : str) :
  key_ok k -> digest_ok v -> parse_line (manifest_line (k, v)) = Some (k, v).
Proof.
  intros [Hc [_ [_ Hhead]]] [Hne Hhex].
  apply parse_line_some. apply str_split_two.
  destruct (exists_last Hne) as [front [last_ ->]].
  rewrite forallb_app in Hhex. apply andb_true_iff in Hhex.
  destruct Hhex as [Hfront Hlast]. simpl in Hlast.
  rewrite andb_true_r in Hlast.
  destruct (lower_hex_cases _ Hlast) as [Hsp _].
  assert (Hstrip : str_strip (manifest_line (k, front ++ [last_]))
                   = k ++ colon :: front ++ [last_]).
  { unfold manifest_line. cbn [fst snd].
    destruct k as [|c k].
    - cbn [app].
      replace ((front ++ [last_]) ++ [newline])
        with (front ++ [last_; newline])
        by reassociate.
      apply str_strip_line; [reflexivity | exact Hsp].
    - cbn [app].
      replace (k ++ colon :: (front ++ [last_]) ++ [newline])
        with ((k ++ colon :: front) ++ [last_; newline])
        by reassociate.
      rewrite (str_strip_line c last_ (k ++ colon :: front) Hhead Hsp).
      reassociate. }
  split; [exact Hstrip|]. split; [exact Hc|].
  apply lower_hex_no_char; [reflexivity|].
  rewrite forallb_app, Hfront. simpl. now rewrite Hlast.
Qed.

Lemma dict_set_fresh (d : dict) (k v : str) :
  ~ In k (dict_keys d) -> dict_set d k v = d ++ [(k, v)].
Proof.
  induction d as [|[k' v'] rest IH]; simpl; intros Hfresh; [reflexivity|].
  destruct (str_eqb k' k) eqn:E.
  - apply str_eqb_eq in E. exfalso. apply Hfresh. left. exact E.
  - rewrite IH; [reflexivity|]. intros Hin. apply Hfresh. right. exact Hin.
Qed.

(** The reader rebuilds a dictionary from the text written for it, when
    its keys are distinct and its entries can be carried by a line. *)
Lemma read_written_manifest (written : dict) :
  forall read : dict,
    NoDup (dict_keys (read ++ written)) ->
    Forall (fun entry => key_ok (fst entry) /\ digest_ok (snd entry)) written ->
    read_lines (file_lines (write_manifest written)) read
    = Some (read ++ written).
Proof.
  induction written as [|[k v] rest IH]; intros read Hnd Hok.
  - simpl. now rewrite app_nil_r.
  - inversion Hok as [|? ? [Hk Hv] Hrest]; subst. cbn [fst snd] in Hk, Hv.
    assert (Hline : file_lines (write_manifest ((k, v) :: rest))
                    = manifest_line (k, v) :: file_lines (write_manifest rest)).
    { unfold write_manifest. cbn [flat_map]. unfold manifest_line at 1.
      cbn [fst snd].
      replace ((k ++ [colon] ++ v ++ [newline])
               ++ flat_map manifest_line rest)
        with ((k ++ colon :: v) ++ newline :: flat_map manifest_line rest)
        by reassociate.
      rewrite file_lines_first.
      - unfold manifest_line. cbn [fst snd]. f_equal. reassociate.
      - destruct Hk as [_ [Hn _]], Hv as [_ Hhex].
        rewrite has_char_app, Hn. simpl.
        apply lower_hex_no_char; [reflexivity | exact Hhex].
      - destruct Hk as [_ [_ [Hr _]]], Hv as [_ Hhex].
        rewrite has_char_app, Hr. simpl.
        apply lower_hex_no_char; [reflexivity | exact Hhex]. }
    rewrite Hline. cbn [read_lines].
    rewrite (parse_written_line k v Hk Hv).
    assert (Hfresh : ~ In k (dict_keys read)).
    { unfold dict_keys in *. rewrite map_app in Hnd. simpl in Hnd.
      apply NoDup_remove_2 in Hnd. intros Hin. apply Hnd.
      apply in_or_app. left. exact Hin. }
    rewrite (dict_set_fresh read k v Hfresh).
    rewrite IH; [now rewrite <- app_assoc | | exact Hrest].
    rewrite <- app_assoc. exact Hnd.
Qed.

(* ===================================================================== *)
(** * Member names and manifest keys of ordinary paths *)
(* ===================================================================== *)

Lemma safe_name_parts (name : str) :
  safe_name name = true ->
  valid_name name = true /\ plain name /\ line_safe name = true.
Proof.
  unfold safe_name. intros H.
  apply andb_true_iff in H. destruct H as [H Hl].
  apply andb_true_iff in H. destruct H as [Hv Hb].
  split; [exact Hv|]. split; [|exact Hl].
  split; [apply valid_name_no_slash; exact Hv | apply negb_true_iff; exact Hb].
Qed.

Lemma good_path_named (p : path) : good_path p -> named_path p.
Proof.
  intros [Hne H]. split; [exact Hne|].
  eapply Forall_impl; [|exact H].
  intros c Hc. apply safe_name_parts in Hc.
  destruct Hc as [Hv [[_ Hb] _]]. split; assumption.
Qed.

Lemma named_path_plain (p : path) : named_path p -> Forall plain p.
Proof.
  intros [_ H]. eapply Forall_impl; [|exact H].
  intros c [Hv Hb]. split; [apply valid_name_no_slash; exact Hv | exact Hb].
Qed.

Lemma valid_name_parts (name : str) :
  valid_name name = true ->
  str_eqb name [] = false /\ str_eqb name (lit ".") = false
  /\ str_eqb name (lit "..") = false.
Proof.
  unfold valid_name. intros H.
  repeat (apply andb_true_iff in H; destruct H as [H ?]).
  repeat split; apply negb_true_iff; assumption.
Qed.

Lemma str_join_no_char (x : ascii) (p : path) :
  x <> slash ->
  Forall (fun c => has_char x c = false) p ->
  has_char x (str_join [slash] p) = false.
Proof.
  intros Hx. induction 1 as [|c rest Hc _ IH]; [reflexivity|].
  destruct rest as [|c2 rest]; [exact Hc|].
  change (str_join [slash] (c :: c2 :: rest))
    with (c ++ [slash] ++ str_join [slash] (c2 :: rest)).
  rewrite !has_char_app, Hc, IH. cbn [has_char existsb].
  apply Ascii.eqb_neq in Hx. rewrite Hx. reflexivity.
Qed.

Lemma str_join_head (a : ascii) (c : str) (rest : path) :
  exists tail, str_join [slash] ((a :: c) :: rest) = a :: tail.
Proof.
  destruct rest as [|c2 rest]; simpl; eexists; reflexivity.
Qed.

Lemma str_join_last (init : path) (front : str) (z : ascii) :
  exists s, str_join [slash] (init ++ [front ++ [z]]) = s ++ [z].
Proof.
  induction init as [|c init [s IH]].
  - exists front. reflexivity.
  - destruct init as [|c2 init].
    + exists (c ++ [slash] ++ front). simpl. reassociate.
    + exists (c ++ [slash] ++ s).
      change (str_join [slash] ((c :: c2 :: init) ++ [front ++ [z]]))
        with (c ++ [slash] ++ str_join [slash] ((c2 :: init) ++ [front ++ [z]])).
      rewrite IH. reassociate.
Qed.

Lemma ends_with_slash_snoc (s : str) (z : ascii) :
  ends_with_slash (s ++ [z]) = Ascii.eqb z slash.
Proof. unfold ends_with_slash. rewrite rev_app_distr. reflexivity. Qed.

(** The Portable Path of a named path is the join of its components; it
    begins with the first character of the first component, which is not
    a slash, and it does not end with a slash. *)
Lemma portable_path_named (p : path) :
  named_path p ->
  portable_path p = str_join [slash] p
  /\ ends_with_slash (portable_path p) = false
  /\ exists a c rest tail,
       p = (a :: c) :: rest /\ portable_path p = a :: tail /\ a <> slash.
Proof.
  intros Hn. pose proof (named_path_plain p Hn) as Hplain.
  destruct Hn as [Hne Hnamed].
  rewrite (portable_path_plain p Hne Hplain).
  split; [reflexivity|].
  destruct p as [|c rest]; [congruence|].
  inversion Hnamed as [|? ? [Hv _] _]; subst.
  pose proof (valid_name_no_slash _ Hv) as Hslash.
  destruct (valid_name_parts _ Hv) as [Hnonempty _].
  destruct c as [|a c]; [discriminate Hnonempty|].
  destruct (str_join_head a c rest) as [tail Hhead].
  split.
  - destruct (@exists_last _ ((a :: c) :: rest)) as [init [lastc Hsplit]];
      [discriminate|].
    assert (Hin : In lastc ((a :: c) :: rest)).
    { rewrite Hsplit. apply in_or_app. right. left. reflexivity. }
    rewrite Forall_forall in Hnamed.
    destruct (Hnamed lastc Hin) as [Hvl _].
    pose proof (valid_name_no_slash _ Hvl) as Hsl.
    destruct (valid_name_parts _ Hvl) as [Hnel _].
    destruct (@exists_last _ lastc) as [front [z Hz]].
    { intros ->. discriminate Hnel. }
    subst lastc. rewrite Hsplit.
    destruct (str_join_last init front z) as [s ->].
    rewrite ends_with_slash_snoc.
    rewrite has_char_app in Hsl. apply orb_false_iff in Hsl.
    destruct Hsl as [_ Hz]. cbn [has_char existsb] in Hz.
    rewrite orb_false_r in Hz. rewrite Ascii.eqb_sym. exact Hz.
  - exists a, c, rest, tail. split; [reflexivity|]. split; [exact Hhead|].
    cbn [has_char existsb] in Hslash. apply orb_false_iff in Hslash.
    destruct Hslash as [Hs _]. apply Ascii.eqb_neq in Hs. congruence.
Qed.

(** The Portable Path of a good path can be carried by a line of the
    manifest. *)
Lemma portable_path_good (p : path) :
  good_path p -> key_ok (portable_path p).
Proof.
  intros Hg.
  destruct (portable_path_named p (good_path_named p Hg))
    as [Hjoin [_ [a [c [rest [tail [Hp [Hhead _]]]]]]]].
  destruct Hg as [_ Hsafe].
  assert (Hline : Forall (fun c => line_safe c = true) p).
  { eapply Forall_impl; [|exact Hsafe].
    intros c0 Hc. apply safe_name_parts in Hc. tauto. }
  assert (Hno : forall x, x <> slash ->
            (forall c0, line_safe c0 = true -> has_char x c0 = false) ->
            has_char x (portable_path p) = false).
  { intros x Hx Hall. rewrite Hjoin. apply str_join_no_char; [exact Hx|].
    eapply Forall_impl; [|exact Hline]. exact Hall. }
  assert (Hparts : forall c0, line_safe c0 = true ->
            has_char colon c0 = false /\ has_char newline c0 = false
            /\ has_char carriage_return c0 = false).
  { intros c0 Hl. unfold line_safe in Hl.
    repeat (apply andb_true_iff in Hl; destruct Hl as [Hl ?]).
    repeat split; apply negb_true_iff; assumption. }
  repeat split.
  - apply Hno; [discriminate|]. intros c0 Hl. apply (Hparts c0 Hl).
  - apply Hno; [discriminate|]. intros c0 Hl. apply (Hparts c0 Hl).
  - apply Hno; [discriminate|]. intros c0 Hl. apply (Hparts c0 Hl).
  - rewrite Hhead. subst p. inversion Hline as [|? ? Hl _]; subst.
    unfold line_safe in Hl. apply andb_true_iff in Hl.
    destruct Hl as [_ Hl]. apply negb_true_iff. exact Hl.
Qed.

Lemma norm_step_valid (new_comps : list str) (comp : str) :
  valid_name comp = true -> norm_step 0 new_comps comp = new_comps ++ [comp].
Proof.
  intros Hv. destruct (valid_name_parts _ Hv) as [H1 [H2 H3]].
  unfold norm_step. rewrite H1, H2, H3. reflexivity.
Qed.

Lemma fold_norm_step_valid (p : path) :
  Forall (fun c => valid_name c = true) p ->
  forall acc, fold_left (norm_step 0) p acc = acc ++ p.
Proof.
  induction 1 as [|c rest Hc _ IH]; intros acc; simpl.
  - now rewrite app_nil_r.
  - rewrite (norm_step_valid _ _ Hc), IH. reassociate.
Qed.

Lemma initial_slashes_none (a : ascii) (tail : str) :
  a <> slash -> initial_slashes (a :: tail) = 0.
Proof.
  intros Ha. apply Ascii.eqb_neq in Ha. unfold initial_slashes.
  destruct tail as [|b [|c tail]]; rewrite Ha; reflexivity.
Qed.

(** [ZipFile.write] stores a file of a named path under its Portable
    Path. *)
Lemma zip_arcname_named (p : path) :
  named_path p -> zip_arcname (portable_path p) = Some (portable_path p).
Proof.
  intros Hn. pose proof (named_path_plain p Hn) as Hplain.
  destruct (portable_path_named p Hn)
    as [Hjoin [_ [a [c [rest [tail [_ [Hhead Ha]]]]]]]].
  destruct Hn as [Hne Hnamed].
  assert (Hvalid : Forall (fun c => valid_name c = true) p).
  { eapply Forall_impl; [|exact Hnamed]. intros c0 [Hc _]. exact Hc. }
  assert (Hnorm : posix_normpath (portable_path p) = portable_path p).
  { rewrite Hhead. unfold posix_normpath.
    rewrite (initial_slashes_none a tail Ha). rewrite <- Hhead, Hjoin.
    rewrite (str_split_join p Hne Hplain).
    rewrite (fold_norm_step_valid p Hvalid). cbn [repeat app].
    rewrite <- Hjoin, Hhead. reflexivity. }
  unfold zip_arcname. rewrite Hnorm, Hhead. cbn [strip_leading].
  apply Ascii.eqb_neq in Ha. rewrite Ha. reflexivity.
Qed.

(* ===================================================================== *)
(** * A fresh archive of ordinary names verifies *)
(* ===================================================================== *)

Lemma hierarchy_valid_names (t : tree) :
  hierarchy t = true -> all_names valid_name t = true.
Proof.
  induction t as [f|entries IH] using tree_induction; intros Hh;
    [reflexivity|].
  rewrite hierarchy_node in Hh. rewrite all_names_node.
  apply andb_true_iff in Hh. destruct Hh as [Hh Hsubs].
  apply andb_true_iff in Hh. destruct Hh as [Hvalid _].
  rewrite forallb_forall in Hvalid, Hsubs. apply forallb_forall.
  intros e He. rewrite (Hvalid (fst e) (in_map fst _ _ He)).
  apply (IH e He). apply Hsubs. exact He.
Qed.

Lemma all_names_andb (ok1 ok2 : str -> bool) (t : tree) :
  all_names ok1 t = true -> all_names ok2 t = true ->
  all_names (fun name => ok1 name && ok2 name) t = true.
Proof.
  induction t as [f|entries IH] using tree_induction; intros H1 H2;
    [reflexivity|].
  rewrite all_names_node in *. rewrite forallb_forall in H1, H2.
  apply forallb_forall. intros e He.
  specialize (H1 e He). specialize (H2 e He).
  apply andb_true_iff in H1, H2. destruct H1 as [Hn1 Hs1], H2 as [Hn2 Hs2].
  rewrite Hn1, Hn2, (IH e He Hs1 Hs2). reflexivity.
Qed.

(** The files of a tree whose names all pass a test have components
    that pass it. *)
Lemma tree_files_names (ok : str -> bool) (t : tree) :
  all_names ok t = true ->
  forall prefix p : path,
    In p (tree_files prefix t) ->
    exists q, p = prefix ++ q /\ Forall (fun c => ok c = true) q
              /\ (is_dir t = true -> q <> []).
Proof.
  induction t as [f|entries IH] using tree_induction;
    intros Hok prefix p Hin.
  - destruct Hin as [<-|[]]. exists []. rewrite app_nil_r.
    split; [reflexivity|]. split; [constructor | discriminate].
  - rewrite tree_files_node in Hin. apply in_flat_map in Hin.
    destruct Hin as [e [He Hp]].
    rewrite all_names_node in Hok. rewrite forallb_forall in Hok.
    specialize (Hok e He). apply andb_true_iff in Hok.
    destruct Hok as [Hname Hsub].
    destruct (IH e He Hsub _ _ Hp) as [q [-> [Hq _]]].
    exists (fst e :: q). split; [reassociate|]. split; [|discriminate].
    constructor; assumption.
Qed.

Lemma visited_good (entries : list (str * tree)) (p : path) :
  hierarchy (Node entries) = true ->
  backslash_free (Node entries) = true ->
  manifest_safe (Node entries) = true ->
  In p (visited (os_walk [] (Node entries))) -> good_path p.
Proof.
  intros Hh Hb Hm Hin.
  assert (Hsafe : all_names safe_name (Node entries) = true).
  { apply (all_names_andb _ line_safe); [|exact Hm].
    apply all_names_andb; [apply hierarchy_valid_names; exact Hh | exact Hb]. }
  apply (Permutation_in _ (visited_os_walk (Node entries) [])) in Hin.
  cbn [is_dir] in Hin.
  destruct (tree_files_names safe_name _ Hsafe _ _ Hin) as [q [-> [Hq Hne]]].
  split; [apply Hne; reflexivity | exact Hq].
Qed.

Lemma dict_get_set_same (d : dict) (k v : str) :
  dict_get (dict_set d k v) k = Some v.
Proof.
  induction d as [|[k0 v0] rest IH]; simpl.
  - now rewrite str_eqb_refl.
  - destruct (str_eqb k0 k) eqn:E; simpl; rewrite E; [reflexivity | exact IH].
Qed.

Lemma dict_get_set_other (d : dict) (k v k' : str) :
  k' <> k -> dict_get (dict_set d k v) k' = dict_get d k'.
Proof.
  intros Hne. induction d as [|[k0 v0] rest IH]; simpl.
  - destruct (str_eqb k k') eqn:E; [|reflexivity].
    apply str_eqb_eq in E. congruence.
  - destruct (str_eqb k0 k) eqn:E; simpl.
    + apply str_eqb_eq in E. subst k0.
      destruct (str_eqb k k') eqn:E'; [|reflexivity].
      apply str_eqb_eq in E'. congruence.
    + rewrite IH. reflexivity.
Qed.

Lemma dict_get_In (d : dict) (k v : str) :
  NoDup (dict_keys d) -> In (k, v) d -> dict_get d k = Some v.
Proof.
  induction d as [|[k0 v0] rest IH]; simpl; intros Hnd Hin; [destruct Hin|].
  inversion Hnd as [|? ? Hfresh Hnd']; subst.
  destruct Hin as [Heq|Hin].
  - injection Heq as -> ->. now rewrite str_eqb_refl.
  - destruct (str_eqb k0 k) eqn:E.
    + apply str_eqb_eq in E. subst k0. exfalso. apply Hfresh.
      apply (in_map fst) in Hin. exact Hin.
    + apply IH; assumption.
Qed.

Lemma dict_get_key (d : dict) (k : str) :
  In k (dict_keys d) -> exists v, dict_get d k = Some v.
Proof.
  induction d as [|[k0 v0] rest IH]; simpl; intros Hin; [destruct Hin|].
  destruct (str_eqb k0 k) eqn:E; [eexists; reflexivity|].
  destruct Hin as [Heq|Hin]; [|apply IH; exact Hin].
  apply str_eqb_neq in E. congruence.
Qed.

Lemma keys_add_NoDup (keys : list str) (k : str) :
  NoDup keys -> NoDup (keys_add keys k).
Proof.
  intros Hnd. unfold keys_add.
  destruct (existsb (fun k' => str_eqb k' k) keys) eqn:E; [exact Hnd|].
  apply NoDup_app; [exact Hnd | constructor; [intros [] | constructor] |].
  intros a Hin [->|[]].
  assert (Hex : existsb (fun k' => str_eqb k' a) keys = true).
  { apply existsb_exists. exists a. split; [exact Hin | apply str_eqb_refl]. }
  congruence.
Qed.

Lemma getinfo_app_same (zipf : container) (name : str) (m : member) :
  getinfo (zipf ++ [(name, m)]) name = Some m.
Proof.
  induction zipf as [|[n m'] rest IH]; simpl.
  - now rewrite str_eqb_refl.
  - rewrite IH. reflexivity.
Qed.

Lemma process_file_consistent (source : tree) (root : path) (file : str)
  (st st' : zstate) :
  good_path (root ++ [file]) ->
  process_file source root file st = Continue st' ->
  success st' = true ->
  consistent st -> consistent st'.
Proof.
  intros Hgood Hrun Hs [Hnd Hinv].
  pose proof (portable_path_good _ Hgood) as Hkey.
  pose proof (good_path_named _ Hgood) as Hnamed.
  destruct (portable_path_named _ Hnamed) as [_ [Hend _]].
  pose proof (zip_arcname_named _ Hnamed) as Harc.
  unfold process_file in Hrun. fold (portable_path (root ++ [file])) in Hrun.
  destruct (compute_file_hash (fs_lookup source (root ++ [file])) CHUNK_SIZE)
    as [file_hash|] eqn:Hhash.
  2:{ inversion Hrun; subst. discriminate Hs. }
  destruct (fs_lookup source (root ++ [file])) as [f| |] eqn:Hobj;
    try discriminate Hhash.
  unfold zip_write in Hrun.
  destruct f as [data cond]. cbn [file_condition file_data] in Hrun.
  destruct cond; rewrite ?Harc in Hrun; inversion Hrun; subst;
    try discriminate Hs.
  rewrite (compute_file_hash_readable (RegularFile (File data Sound)) data
             CHUNK_SIZE) in Hhash; [|reflexivity | discriminate].
  injection Hhash as <-.
  split; cbn [file_hashes zipf].
  - rewrite dict_keys_set. apply keys_add_NoDup. exact Hnd.
  - intros k v Hget.
    destruct (list_eq_dec ascii_dec k (portable_path (root ++ [file])))
      as [->|Hne].
    + rewrite dict_get_set_same in Hget. injection Hget as <-.
      split; [exact Hkey|]. split; [exact Hend|].
      exists data. split; [apply getinfo_app_same | reflexivity].
    + rewrite dict_get_set_other in Hget by exact Hne.
      destruct (Hinv k v Hget) as [Hk [He [data' [Hinfo Hv]]]].
      split; [exact Hk|]. split; [exact He|].
      exists data'. split; [|exact Hv].
      rewrite getinfo_app_other; [exact Hinfo|]. congruence.
Qed.

Lemma process_files_consistent (source : tree) (root : path)
  (files : list str) :
  forall st st' : zstate,
    (forall file, In file files -> good_path (root ++ [file])) ->
    process_files source root files st = Continue st' ->
    success st' = true ->
    consistent st -> consistent st'.
Proof.
  induction files as [|file rest IH]; intros st st' Hgood H Hs Hc;
    simpl in H.
  - inversion H; subst. exact Hc.
  - destruct (process_file source root file st) as [st1|st1] eqn:H1;
      [|discriminate].
    destruct (process_files_success _ _ _ _ _ H Hs) as [Hs1 _].
    apply (IH st1 st'); try assumption.
    + intros f Hin. apply Hgood. right. exact Hin.
    + apply (process_file_consistent source root file st st1);
        try assumption.
      apply Hgood. left. reflexivity.
Qed.

Lemma process_walk_consistent (source : tree)
  (walk : list (path * list str * list str)) :
  forall st st' : zstate,
    (forall p, In p (visited walk) -> good_path p) ->
    process_walk source walk st = Continue st' ->
    success st' = true ->
    consistent st -> consistent st'.
Proof.
  induction walk as [|[[root dirs] files] rest IH];
    intros st st' Hgood H Hs Hc; simpl in H.
  - inversion H; subst. exact Hc.
  - destruct (process_files source root files st) as [st1|st1] eqn:H1;
      [|discriminate].
    destruct (process_walk_success _ _ _ _ H Hs) as [Hs1 _].
    apply (IH st1 st'); try assumption.
    + intros p Hin. apply Hgood. cbn [visited flat_map fst snd].
      apply in_or_app. right. exact Hin.
    + apply (process_files_consistent source root files st st1);
        try assumption.
      intros f Hin. apply Hgood. cbn [visited flat_map fst snd].
      apply in_or_app. left. apply (in_map (fun file => root ++ [file])).
      exact Hin.
Qed.

(** A consistent state passes verification against its own manifest. *)
Lemma consistent_verifies (st : zstate) :
  consistent st ->
  verify_integrity (Some (zipf st)) (Some (write_manifest (file_hashes st)))
  = true.
Proof.
  intros [Hnd Hinv]. unfold verify_integrity, read_manifest.
  rewrite (read_written_manifest (file_hashes st) []).
  - cbn [app]. apply verify_entries_all. intros k Hin.
    destruct (dict_get_key _ _ Hin) as [v Hget].
    destruct (Hinv k v Hget) as [_ [Hend [data [Hinfo ->]]]].
    unfold verify_entry, zip_extract. rewrite Hinfo, Hend. cbn [intact payload].
    rewrite (compute_file_hash_readable (RegularFile (File data Sound)) data
               CHUNK_SIZE); [|reflexivity | discriminate].
    rewrite Hget, str_eqb_refl. reflexivity.
  - exact Hnd.
  - apply Forall_forall. intros [k v] Hin. cbn [fst snd].
    pose proof (dict_get_In _ _ _ Hnd Hin) as Hget.
    destruct (Hinv k v Hget) as [Hk [_ [data [_ ->]]]].
    split; [exact Hk|]. split.
    + intros Hnil.
      pose proof (proj1 (hex_words_shape (SHA256.digest_words data))) as Hlen.
      unfold SHA256.hexdigest_of in Hnil. rewrite Hnil in Hlen.
      discriminate Hlen.
    + apply hex_words_shape.
Qed.

(** X1.  The round trip on ordinary names.  When the source directory is a
    true hierarchy whose names hold no backslash, no colon and no line
    break, and do not begin with white space, a run of [zip_folder] that
    reports success is followed by a successful [verify_integrity] on the
    container and the manifest it has written. *)
Theorem fresh_archive_verifies (e : env) (entries : list (str * tree))
  (d d' : disk) (hashes : dict) :
  hierarchy (Node entries) = true ->
  backslash_free (Node entries) = true ->
  manifest_safe (Node entries) = true ->
  zip_folder e (Node entries) d = ((true, hashes), d') ->
  verify_integrity (container_file d') (manifest_file d') = true.
Proof.
  intros Hh Hb Hm Hrun.
  destruct (zip_folder_success _ _ _ _ _ Hrun) as [st [Hwalk [Hs [-> ->]]]].
  cbn [container_file manifest_file].
  apply consistent_verifies.
  apply (process_walk_consistent (Node entries)
           (os_walk [] (Node entries)) (ZState [] [] true) st);
    try assumption.
  - intros p Hin. apply (visited_good entries); assumption.
  - split; [constructor | intros k v Hget; discriminate Hget].
Qed.

Lemma fresh_archive_verifies_sample :
  let run := zip_folder fair_env (Node sample_tree) empty_disk in
  verify_integrity (container_file (snd run)) (manifest_file (snd run)) = true.
Proof.
  intros run.
  apply (fresh_archive_verifies fair_env sample_tree empty_disk (snd run)
           (snd (fst run))); vm_compute; reflexivity.
Defined.

(* ===================================================================== *)
(** * A hierarchy of sound files is archived with success *)
(* ===================================================================== *)

Lemma all_files_node (ok : file -> bool) (entries : list (str * tree)) :
  all_files ok (Node entries)
  = forallb (fun e => all_files ok (snd e)) entries.
Proof.
  simpl.
  induction entries as [|[name sub] rest IH]; simpl;
    [reflexivity | now rewrite IH].
Qed.

Lemma assoc_find_in {A : Type} (entries : list (str * A)) (e : str * A) :
  NoDup (map fst entries) -> In e entries ->
  assoc_find (fst e) entries = Some (snd e).
Proof.
  induction entries as [|[n a] rest IH]; simpl; intros Hnd Hin;
    [destruct Hin|].
  inversion Hnd as [|? ? Hfresh Hnd']; subst.
  destruct Hin as [<-|Hin].
  - simpl. now rewrite str_eqb_refl.
  - destruct (str_eqb n (fst e)) eqn:E.
    + apply str_eqb_eq in E. subst n. exfalso. apply Hfresh.
      apply in_map. exact Hin.
    + apply IH; assumption.
Qed.

(** In a true hierarchy a listed path names the file it was listed
    for. *)
Lemma lookup_tree_files (t : tree) :
  hierarchy t = true -> all_sound t = true ->
  forall prefix q : path,
    In (prefix ++ q) (tree_files prefix t) ->
    exists data, fs_lookup t q = RegularFile (File data Sound).
Proof.
  induction t as [f|entries IH] using tree_induction;
    intros Hh Hs prefix q Hin.
  - destruct Hin as [Heq|[]].
    rewrite <- (app_nil_r prefix) in Heq at 1.
    apply app_inv_head in Heq. subst q.
    destruct f as [data cond]. unfold all_sound, is_sound in Hs. simpl in Hs.
    destruct cond; try discriminate Hs. exists data. reflexivity.
  - rewrite tree_files_node in Hin. apply in_flat_map in Hin.
    destruct Hin as [e [He Hp]].
    destruct (tree_files_prefix _ _ _ Hp) as [q' Heq].
    rewrite <- app_assoc in Heq. apply app_inv_head in Heq. subst q.
    rewrite hierarchy_node in Hh.
    apply andb_true_iff in Hh. destruct Hh as [Hh Hsubs].
    apply andb_true_iff in Hh. destruct Hh as [_ Hdist].
    apply distinct_NoDup in Hdist.
    unfold all_sound in Hs. rewrite all_files_node in Hs.
    rewrite forallb_forall in Hsubs, Hs.
    cbn [app fs_lookup]. rewrite (assoc_find_in entries e Hdist He).
    apply (IH e He (Hsubs e He) (Hs e He) (prefix ++ [fst e])).
    rewrite <- app_assoc. exact Hp.
Qed.

Lemma visited_named (entries : list (str * tree)) (p : path) :
  hierarchy (Node entries) = true ->
  backslash_free (Node entries) = true ->
  In p (visited (os_walk [] (Node entries))) -> named_path p.
Proof.
  intros Hh Hb Hin.
  pose proof (all_names_andb _ _ _ (hierarchy_valid_names _ Hh) Hb) as Hok.
  apply (Permutation_in _ (visited_os_walk (Node entries) [])) in Hin.
  cbn [is_dir] in Hin.
  destruct (tree_files_names _ _ Hok _ _ Hin) as [q [-> [Hq Hne]]].
  split; [apply Hne; reflexivity|].
  eapply Forall_impl; [|exact Hq].
  intros c Hc. apply andb_true_iff in Hc. destruct Hc as [Hv Hc].
  split; [exact Hv | apply negb_true_iff; exact Hc].
Qed.

Lemma visited_sound (entries : list (str * tree)) (p : path) :
  hierarchy (Node entries) = true ->
  all_sound (Node entries) = true ->
  In p (visited (os_walk [] (Node entries))) ->
  exists data, fs_lookup (Node entries) p = RegularFile (File data Sound).
Proof.
  intros Hh Hs Hin.
  apply (Permutation_in _ (visited_os_walk (Node entries) [])) in Hin.
  cbn [is_dir] in Hin.
  apply (lookup_tree_files (Node entries) Hh Hs [] p). exact Hin.
Qed.

Lemma process_file_sound (source : tree) (root : path) (file : str)
  (st : zstate) :
  archivable source (root ++ [file]) ->
  exists st', process_file source root file st = Continue st'
              /\ success st' = success st.
Proof.
  intros [Hnamed [data Hobj]].
  unfold process_file. fold (portable_path (root ++ [file])).
  rewrite Hobj.
  rewrite (compute_file_hash_readable (RegularFile (File data Sound)) data
             CHUNK_SIZE); [|reflexivity | discriminate].
  unfold zip_write. cbn [file_condition file_data].
  rewrite (zip_arcname_named _ Hnamed).
  eexists. split; reflexivity.
Qed.

Lemma process_files_sound (source : tree) (root : path) (files : list str) :
  forall st : zstate,
    (forall file, In file files -> archivable source (root ++ [file])) ->
    exists st', process_files source root files st = Continue st'
                /\ success st' = success st.
Proof.
  induction files as [|file rest IH]; intros st Hall; simpl.
  - exists st. split; reflexivity.
  - destruct (process_file_sound source root file st
                (Hall file (or_introl eq_refl))) as [st1 [H1 Hs1]].
    rewrite H1.
    destruct (IH st1 (fun f Hin => Hall f (or_intror Hin))) as [st' [H Hs]].
    exists st'. split; [exact H | congruence].
Qed.

Lemma process_walk_sound (source : tree)
  (walk : list (path * list str * list str)) :
  forall st : zstate,
    (forall p, In p (visited walk) -> archivable source p) ->
    exists st', process_walk source walk st = Continue st'
                /\ success st' = success st.
Proof.
  induction walk as [|[[root dirs] files] rest IH]; intros st Hall; simpl.
  - exists st. split; reflexivity.
  - destruct (process_files_sound source root files st) as [st1 [H1 Hs1]].
    { intros f Hin. apply Hall. cbn [visited flat_map fst snd].
      apply in_or_app. left. apply (in_map (fun file => root ++ [file])).
      exact Hin. }
    rewrite H1.
    destruct (IH st1) as [st' [H Hs]].
    { intros p Hin. apply Hall. cbn [visited flat_map fst snd].
      apply in_or_app. right. exact Hin. }
    exists st'. split; [exact H | congruence].
Qed.

(** When the source directory is a true hierarchy without backslashes in
    its names, all its files are sound and both output files can be
    written, [zip_folder] reports success and writes the container and
    the manifest. *)
Theorem sound_tree_archives (e : env) (entries : list (str * tree))
  (d : disk) :
  hierarchy (Node entries) = true ->
  backslash_free (Node entries) = true ->
  all_sound (Node entries) = true ->
  can_create_zip e = true -> can_write_log e = true ->
  exists (hashes : dict) (zipf : container),
    zip_folder e (Node entries) d
    = ((true, hashes), Disk (Some zipf) (Some (write_manifest hashes))).
Proof.
  intros Hh Hb Hs Hz Hl.
  destruct (process_walk_sound (Node entries) (os_walk [] (Node entries))
              (ZState [] [] true)) as [st [Hwalk Hok]].
  { intros p Hin. split.
    - apply (visited_named entries); assumption.
    - apply (visited_sound entries); assumption. }
  exists (file_hashes st), (zipf st).
  rewrite (zip_folder_writes_manifest e _ d st Hz Hl Hwalk).
  rewrite Hok. reflexivity.
Qed.

(* ===================================================================== *)
(** * Further properties of the Digest Engine *)
(* ===================================================================== *)

Lemma chunks_of_end (chunk_size : Z) (rest left : bytes) :
  file_read chunk_size rest = ([], left) -> chunks_of chunk_size rest = [].
Proof.
  intros Hread. funelim (chunks_of chunk_size rest).
  - reflexivity.
  - rewrite e in Hread. discriminate Hread.
Qed.

Lemma chunks_of_next (chunk_size : Z) (rest : bytes) (b : byte)
  (chunk rest' : bytes) :
  file_read chunk_size rest = (b :: chunk, rest') ->
  chunks_of chunk_size rest = (b :: chunk) :: chunks_of chunk_size rest'.
Proof.
  intros Hread. funelim (chunks_of chunk_size rest).
  - rewrite e in Hread. discriminate Hread.
  - rewrite e in Hread. injection Hread as -> -> ->. reflexivity.
Qed.

(** The loop is the fold of [update] over the chunks read. *)
Lemma read_chunks_fold (chunk_size : Z) (h : SHA256.hash_object)
  (rest : bytes) :
  read_chunks chunk_size h rest
  = fold_left SHA256.update (chunks_of chunk_size rest) h.
Proof.
  funelim (read_chunks chunk_size h rest).
  - rewrite (chunks_of_end _ _ _ e). reflexivity.
  - rewrite (chunks_of_next _ _ _ _ _ e). simpl. apply H.
Qed.

Lemma chunks_of_concat (chunk_size : Z) (rest : bytes) :
  chunk_size <> 0%Z -> concat (chunks_of chunk_size rest) = rest.
Proof.
  intros Hsize. funelim (chunks_of chunk_size rest).
  - simpl. symmetry. apply (file_read_eof chunk_size rest _ Hsize e).
  - simpl. rewrite H by exact Hsize.
    pose proof (file_read_whole chunk_size rest) as Hw.
    rewrite e in Hw. exact Hw.
Qed.

Lemma file_read_bound (size : Z) (rest : bytes) :
  (0 <= size)%Z ->
  (Z.of_nat (length (fst (file_read size rest))) <= size)%Z.
Proof.
  intros Hsize. unfold file_read.
  destruct (size <? 0)%Z eqn:E; [apply Z.ltb_lt in E; lia|].
  cbn [fst]. rewrite length_firstn. lia.
Qed.

Lemma chunks_of_bounded (chunk_size : Z) (rest : bytes) :
  (0 <= chunk_size)%Z ->
  Forall (fun chunk => chunk <> []
                       /\ (Z.of_nat (length chunk) <= chunk_size)%Z)
         (chunks_of chunk_size rest).
Proof.
  intros Hsize. funelim (chunks_of chunk_size rest).
  - constructor.
  - constructor; [|apply H; exact Hsize].
    split; [discriminate|].
    pose proof (file_read_bound chunk_size rest Hsize) as Hb.
    rewrite e in Hb. exact Hb.
Qed.



Lemma read_chunks_zero (h : SHA256.hash_object) (rest : bytes) :
  read_chunks 0 h rest = h.
Proof.
  rewrite read_chunks_fold.
  rewrite (chunks_of_end 0 rest rest); [reflexivity|].
  unfold file_read. simpl. rewrite Z.min_l by lia. reflexivity.
Qed.



(* ===================================================================== *)
(** * Further properties of the Path Normalizer *)
(* ===================================================================== *)

Lemma normalize_path_app (a b : str) :
  normalize_path (a ++ b) = normalize_path a ++ normalize_path b.
Proof.
  unfold normalize_path. rewrite !str_replace_map. apply map_app.
Qed.

Lemma normalize_path_join (sep : str) (comps : list str) :
  normalize_path (str_join sep comps)
  = str_join (normalize_path sep) (map normalize_path comps).
Proof.
  induction comps as [|c rest IH]; [reflexivity|].
  destruct rest as [|c2 rest]; [reflexivity|].
  change (str_join sep (c :: c2 :: rest))
    with (c ++ sep ++ str_join sep (c2 :: rest)).
  rewrite !normalize_path_app, IH. reflexivity.
Qed.

(** X10.  Path portability for every path: a list of components written with
    backslashes and the same list written with slashes normalise to the
    same string, the slash-joined list of the normalised components. *)
Theorem normalize_path_separator_independent (comps : list str) :
  normalize_path (str_join [backslash] comps)
  = normalize_path (str_join [slash] comps)
  /\ normalize_path (str_join [slash] comps)
     = str_join [slash] (map normalize_path comps).
Proof.
  rewrite !normalize_path_join. split; reflexivity.
Qed.

(* ===================================================================== *)
(** * Further properties of the manifest and of the verifier *)
(* ===================================================================== *)

(** X11.  The manifest round trip.  A dictionary whose keys hold no colon and
    no line break and do not begin with white space, and whose values are
    non-empty lowercase hexadecimal strings, is read back from the text
    written for it, entry by entry and in the same order. *)
Theorem manifest_round_trip (hashes : dict) :
  NoDup (dict_keys hashes) ->
  Forall (fun entry => key_ok (fst entry) /\ digest_ok (snd entry)) hashes ->
  read_manifest (write_manifest hashes) = Some hashes.
Proof.
  intros Hnd Hok. unfold read_manifest.
  apply (read_written_manifest hashes []); assumption.
Qed.

Lemma manifest_round_trip_witness :
  read_manifest
    (write_manifest [(lit "small.txt", hello_digest);
                     (lit "sub/nested.txt", world_digest)])
  = Some [(lit "small.txt", hello_digest);
          (lit "sub/nested.txt", world_digest)].
Proof.
  apply manifest_round_trip.
  - constructor; [|constructor; [intros [] | constructor]].
    intros [H|[]]. discriminate H.
  - repeat constructor; vm_compute; try reflexivity; discriminate.
Defined.

Lemma verify_entry_member (zipf : container) (original_hashes : dict)
  (file_path : str) :
  verify_entry zipf original_hashes file_path = true
  <-> exists m : member,
        getinfo zipf file_path = Some m
        /\ ends_with_slash file_path = false
        /\ intact m = true
        /\ dict_get original_hashes file_path
           = Some (SHA256.hexdigest_of (payload m)).
Proof.
  unfold verify_entry, zip_extract. split.
  - destruct (getinfo zipf file_path) as [m|]; [|discriminate].
    destruct (ends_with_slash file_path); [discriminate|].
    destruct (intact m) eqn:Hint; [|discriminate].
    rewrite (compute_file_hash_readable
               (RegularFile (File (payload m) Sound)) (payload m) CHUNK_SIZE);
      [|reflexivity | discriminate].
    destruct (dict_get original_hashes file_path) as [recorded|];
      [|discriminate].
    destruct (str_eqb (SHA256.hexdigest_of (payload m)) recorded) eqn:E;
      [|discriminate].
    apply str_eqb_eq in E. subst recorded. intros _.
    exists m. repeat split. exact Hint.
  - intros [m [Hm [Hend [Hint Hget]]]].
    rewrite Hm, Hend, Hint.
    rewrite (compute_file_hash_readable
               (RegularFile (File (payload m) Sound)) (payload m) CHUNK_SIZE);
      [|reflexivity | discriminate].
    rewrite Hget, str_eqb_refl. reflexivity.
Qed.



(** Detection.  If the manifest lists a path under which the container
    has no member, a member that fails its check sum, a directory, or a
    payload whose digest is not the recorded one, [verify_integrity]
    returns [False], whatever the other entries are. *)
Theorem bad_entry_fails_verification (zipf : container) (text : str)
  (original_hashes : dict) (file_path recorded : str) :
  read_manifest text = Some original_hashes ->
  dict_get original_hashes file_path = Some recorded ->
  (getinfo zipf file_path = None
   \/ ends_with_slash file_path = true
   \/ exists m : member,
        getinfo zipf file_path = Some m
        /\ (intact m = false
            \/ SHA256.hexdigest_of (payload m) <> recorded)) ->
  verify_integrity (Some zipf) (Some text) = false.
Proof.
  intros Hread Hget Hbad.
  destruct (verify_integrity (Some zipf) (Some text)) eqn:Hv; [|reflexivity].
  exfalso.
  assert (Hin : In file_path (dict_keys original_hashes)).
  { clear -Hget. induction original_hashes as [|[k v] rest IH];
      simpl in *; [discriminate|].
    destruct (str_eqb k file_path) eqn:E.
    - left. apply str_eqb_eq. exact E.
    - right. apply IH. exact Hget. }
  unfold verify_integrity in Hv. rewrite Hread in Hv.
  pose proof (proj1 (verify_entries_all zipf original_hashes _) Hv
                file_path Hin) as He.
  apply verify_entry_member in He.
  destruct He as [m [Hm [Hend [Hint Hrec]]]].
  destruct Hbad as [Hnone | [Hdir | [m' [Hm' [Hbroken | Hdiff]]]]].
  - congruence.
  - congruence.
  - rewrite Hm in Hm'. injection Hm' as <-. congruence.
  - rewrite Hm in Hm'. injection Hm' as <-. rewrite Hget in Hrec.
    injection Hrec as Hrec. apply Hdiff. symmetry. exact Hrec.
Qed.

Lemma bad_entry_fails_verification_witness :
  verify_integrity (Some [(lit "small.txt", Member world true)])
    (Some (lit "small.txt:" ++ hello_digest ++ [newline]))
  = false.
Proof.
  apply (bad_entry_fails_verification
           [(lit "small.txt", Member world true)]
           (lit "small.txt:" ++ hello_digest ++ [newline])
           [(lit "small.txt", hello_digest)] (lit "small.txt") hello_digest).
  - vm_compute. reflexivity.
  - vm_compute. reflexivity.
  - right. right. exists (Member world true). split; [reflexivity|].
    right. vm_compute. discriminate.
Defined.

(* ===================================================================== *)
(** * Further properties of the Archive Builder *)
(* ===================================================================== *)

(** A file after which [success] still holds is a sound regular file. *)
Lemma process_file_success_sound (source : tree) (root : path) (file : str)
  (st st' : zstate) :
  process_file source root file st = Continue st' ->
  success st' = true ->
  exists data,
    fs_lookup source (root ++ [file]) = RegularFile (File data Sound).
Proof.
  unfold process_file. intros H Hs.
  destruct (fs_lookup source (root ++ [file])) as [[data cond]| |];
    [|cbn in H; inversion H; subst; discriminate Hs ..].
  destruct cond; [exists data; reflexivity | | |].
  - cbn in H. inversion H; subst. discriminate Hs.
  - destruct (compute_file_hash (RegularFile (File data LostBeforeAdd))
                CHUNK_SIZE); cbn in H; inversion H; subst; discriminate Hs.
  - destruct (compute_file_hash (RegularFile (File data BadTimestamp))
                CHUNK_SIZE); cbn in H; inversion H; subst; discriminate Hs.
Qed.

Lemma process_files_success_sound (source : tree) (root : path)
  (files : list str) :
  forall st st' : zstate,
    process_files source root files st = Continue st' ->
    success st' = true ->
    forall file, In file files ->
      exists data,
        fs_lookup source (root ++ [file]) = RegularFile (File data Sound).
Proof.
  induction files as [|f rest IH]; intros st st' H Hs file Hin;
    [destruct Hin|]. simpl in H.
  destruct (process_file source root f st) as [st1|st1] eqn:H1;
    [|discriminate].
  destruct (process_files_success _ _ _ _ _ H Hs) as [Hs1 _].
  destruct Hin as [<-|Hin].
  - apply (process_file_success_sound source root f st st1 H1 Hs1).
  - apply (IH st1 st' H Hs file Hin).
Qed.

Lemma process_walk_success_sound (source : tree)
  (walk : list (path * list str * list str)) :
  forall st st' : zstate,
    process_walk source walk st = Continue st' ->
    success st' = true ->
    forall p, In p (visited walk) ->
      exists data, fs_lookup source p = RegularFile (File data Sound).
Proof.
  induction walk as [|[[root dirs] files] rest IH]; intros st st' H Hs p Hin;
    [destruct Hin|]. simpl in H.
  destruct (process_files source root files st) as [st1|st1] eqn:H1;
    [|discriminate].
  destruct (process_walk_success _ _ _ _ H Hs) as [Hs1 _].
  cbn [visited flat_map fst snd] in Hin.
  apply in_app_or in Hin. destruct Hin as [Hin|Hin].
  - apply in_map_iff in Hin. destruct Hin as [file [<- Hfile]].
    apply (process_files_success_sound source root files st st1 H1 Hs1
             file Hfile).
  - apply (IH st1 st' H Hs p Hin).
Qed.



(** The step on an archivable path, in full. *)
Lemma process_file_archivable (source : tree) (root : path) (file : str)
  (st : zstate) :
  archivable source (root ++ [file]) ->
  process_file source root file st
  = Continue
      (ZState (dict_set (file_hashes st) (portable_path (root ++ [file]))
                 (SHA256.hexdigest_of (data_at source (root ++ [file]))))
              (zipf st ++ [stored_member source (root ++ [file])])
              (success st)).
Proof.
  intros [Hnamed [data Hobj]].
  unfold process_file, stored_member, data_at.
  fold (portable_path (root ++ [file])). rewrite Hobj.
  rewrite (compute_file_hash_readable (RegularFile (File data Sound)) data
             CHUNK_SIZE); [|reflexivity | discriminate].
  unfold zip_write. cbn [file_condition file_data open_rb].
  rewrite (zip_arcname_named _ Hnamed). reflexivity.
Qed.

Lemma process_files_archivable (source : tree) (root : path)
  (files : list str) :
  forall st : zstate,
    (forall file, In file files -> archivable source (root ++ [file])) ->
    process_files source root files st
    = Continue
        (ZState (assign_all source (file_hashes st)
                   (map (fun file => root ++ [file]) files))
                (zipf st ++ map (stored_member source)
                              (map (fun file => root ++ [file]) files))
                (success st)).
Proof.
  induction files as [|file rest IH]; intros st Hall; simpl.
  - rewrite app_nil_r. destruct st; reflexivity.
  - rewrite (process_file_archivable source root file st
               (Hall file (or_introl eq_refl))).
    rewrite IH by (intros f Hin; apply Hall; right; exact Hin).
    cbn [file_hashes zipf success]. rewrite <- app_assoc. reflexivity.
Qed.

Lemma assign_all_app (source : tree) (d : dict) (ps qs : list path) :
  assign_all source d (ps ++ qs)
  = assign_all source (assign_all source d ps) qs.
Proof. unfold assign_all. apply fold_left_app. Qed.

Lemma process_walk_archivable (source : tree)
  (walk : list (path * list str * list str)) :
  forall st : zstate,
    (forall p, In p (visited walk) -> archivable source p) ->
    process_walk source walk st
    = Continue
        (ZState (assign_all source (file_hashes st) (visited walk))
                (zipf st ++ map (stored_member source) (visited walk))
                (success st)).
Proof.
  induction walk as [|[[root dirs] files] rest IH]; intros st Hall; simpl.
  - rewrite app_nil_r. destruct st; reflexivity.
  - rewrite process_files_archivable.
    2:{ intros f Hin. apply Hall. cbn [visited flat_map fst snd].
        apply in_or_app. left. apply (in_map (fun file => root ++ [file])).
        exact Hin. }
    rewrite IH.
    2:{ intros p Hin. apply Hall. cbn [visited flat_map fst snd].
        apply in_or_app. right. exact Hin. }
    cbn [file_hashes zipf success visited flat_map fst snd].
    fold (visited rest).
    rewrite assign_all_app, map_app, <- app_assoc. reflexivity.
Qed.

Lemma assign_all_fresh (source : tree) (ps : list path) :
  forall d : dict,
    NoDup (dict_keys d ++ map portable_path ps) ->
    assign_all source d ps = d ++ map (manifest_entry source) ps.
Proof.
  induction ps as [|p rest IH]; intros d Hnd.
  - simpl. now rewrite app_nil_r.
  - cbn [assign_all fold_left]. fold (assign_all source).
    change (fold_left
              (fun d0 p0 => dict_set d0 (portable_path p0)
                              (SHA256.hexdigest_of (data_at source p0)))
              rest
              (dict_set d (portable_path p)
                 (SHA256.hexdigest_of (data_at source p))))
      with (assign_all source
              (dict_set d (portable_path p)
                 (SHA256.hexdigest_of (data_at source p))) rest).
    rewrite dict_set_fresh.
    + rewrite IH.
      * rewrite <- app_assoc. reflexivity.
      * unfold dict_keys in *. rewrite map_app, <- app_assoc. exact Hnd.
    + simpl in Hnd. apply NoDup_remove_2 in Hnd. intros Hin. apply Hnd.
      apply in_or_app. left. exact Hin.
Qed.

(** In a true hierarchy without backslashes the Portable Paths of the
    files visited are pairwise distinct. *)
Lemma visited_portable_NoDup (entries : list (str * tree)) :
  hierarchy (Node entries) = true ->
  backslash_free (Node entries) = true ->
  NoDup (map portable_path (visited (os_walk [] (Node entries)))).
Proof.
  intros Hh Hb.
  apply (Permutation_NoDup
           (l := map portable_path (tree_files [] (Node entries)))).
  - apply Permutation_map. symmetry.
    apply (visited_os_walk (Node entries) []).
  - apply Injective_map_NoDup_in; [|apply tree_files_NoDup; exact Hh].
    intros p q Hp Hq.
    destruct (tree_files_plain _ Hh Hb _ _ Hp) as [p' [-> [Fp Np]]].
    destruct (tree_files_plain _ Hh Hb _ _ Hq) as [q' [-> [Fq Nq]]].
    apply portable_path_inj; try assumption;
      [apply Np | apply Nq]; reflexivity.
Qed.

Lemma visited_archivable (entries : list (str * tree)) :
  hierarchy (Node entries) = true ->
  backslash_free (Node entries) = true ->
  all_sound (Node entries) = true ->
  forall p, In p (visited (os_walk [] (Node entries))) ->
    archivable (Node entries) p.
Proof.
  intros Hh Hb Hs p Hin. split.
  - apply (visited_named entries); assumption.
  - apply (visited_sound entries); assumption.
Qed.



Lemma getinfo_absent (zipf : container) (name : str) :
  ~ In name (namelist zipf) -> getinfo zipf name = None.
Proof.
  induction zipf as [|[n m] rest IH]; simpl; intros Hnot; [reflexivity|].
  rewrite IH by (intros Hin; apply Hnot; right; exact Hin).
  destruct (str_eqb n name) eqn:E; [|reflexivity].
  apply str_eqb_eq in E. exfalso. apply Hnot. left. exact E.
Qed.

Lemma getinfo_In (zipf : container) (name : str) (m : member) :
  NoDup (namelist zipf) -> In (name, m) zipf -> getinfo zipf name = Some m.
Proof.
  induction zipf as [|[n0 m0] rest IH]; simpl; intros Hnd Hin;
    [destruct Hin|].
  inversion Hnd as [|? ? Hfresh Hnd']; subst.
  destruct Hin as [Heq|Hin].
  - injection Heq as -> ->.
    rewrite (getinfo_absent rest name Hfresh), str_eqb_refl. reflexivity.
  - rewrite (IH Hnd' Hin). reflexivity.
Qed.



(** In a true hierarchy a listed path names a file of the tree. *)
Lemma lookup_tree_files_ok (ok : file -> bool) (t : tree) :
  hierarchy t = true -> all_files ok t = true ->
  forall prefix q : path,
    In (prefix ++ q) (tree_files prefix t) ->
    exists f, fs_lookup t q = RegularFile f /\ ok f = true.
Proof.
  induction t as [f|entries IH] using tree_induction;
    intros Hh Hs prefix q Hin.
  - destruct Hin as [Heq|[]].
    rewrite <- (app_nil_r prefix) in Heq at 1.
    apply app_inv_head in Heq. subst q.
    exists f. split; [reflexivity | exact Hs].
  - rewrite tree_files_node in Hin. apply in_flat_map in Hin.
    destruct Hin as [e [He Hp]].
    destruct (tree_files_prefix _ _ _ Hp) as [q' Heq].
    rewrite <- app_assoc in Heq. apply app_inv_head in Heq. subst q.
    rewrite hierarchy_node in Hh.
    apply andb_true_iff in Hh. destruct Hh as [Hh Hsubs].
    apply andb_true_iff in Hh. destruct Hh as [_ Hdist].
    apply distinct_NoDup in Hdist.
    rewrite all_files_node in Hs.
    rewrite forallb_forall in Hsubs, Hs.
    cbn [app fs_lookup]. rewrite (assoc_find_in entries e Hdist He).
    apply (IH e He (Hsubs e He) (Hs e He) (prefix ++ [fst e])).
    rewrite <- app_assoc. exact Hp.
Qed.

Lemma keys_add_incl (keys : list str) (k : str) :
  incl keys (keys_add keys k) /\ In k (keys_add keys k).
Proof.
  unfold keys_add.
  destruct (existsb (fun k' => str_eqb k' k) keys) eqn:E.
  - split; [apply incl_refl|]. apply existsb_exists in E.
    destruct E as [x [Hin Heq]]. apply str_eqb_eq in Heq. subst. exact Hin.
  - split; [apply incl_appl, incl_refl|].
    apply in_or_app. right. left. reflexivity.
Qed.

(** A file that raises nothing but [OSError] lets the run go on, and
    keeps every member listed. *)
Lemma process_file_survivable (source : tree) (root : path) (file : str)
  (st : zstate) :
  survivable source (root ++ [file]) ->
  exists st', process_file source root file st = Continue st'
              /\ (members_listed st -> members_listed st').
Proof.
  intros [Hnamed [[data cond] [Hobj Hio]]].
  unfold process_file. fold (portable_path (root ++ [file])). rewrite Hobj.
  destruct cond; try discriminate Hio.
  - rewrite (compute_file_hash_readable (RegularFile (File data Sound)) data
               CHUNK_SIZE); [|reflexivity | discriminate].
    unfold zip_write. cbn [file_condition file_data].
    rewrite (zip_arcname_named _ Hnamed).
    eexists. split; [reflexivity|].
    unfold members_listed. cbn [zipf file_hashes]. intros Hl.
    rewrite map_app, dict_keys_set. cbn [map fst].
    destruct (keys_add_incl (dict_keys (file_hashes st))
                (portable_path (root ++ [file]))) as [Hincl Hin].
    apply incl_app.
    + eapply incl_tran; [exact Hl | exact Hincl].
    + intros x [<-|[]]. exact Hin.
  - cbn. eexists. split; [reflexivity|]. intros Hl. exact Hl.
  - rewrite (compute_file_hash_readable
               (RegularFile (File data LostBeforeAdd)) data CHUNK_SIZE);
      [|reflexivity | discriminate].
    cbn. eexists. split; [reflexivity|].
    unfold members_listed. cbn [zipf file_hashes]. intros Hl.
    rewrite dict_keys_set.
    eapply incl_tran; [exact Hl | apply keys_add_incl].
Qed.

Lemma process_files_survivable (source : tree) (root : path)
  (files : list str) :
  forall st : zstate,
    (forall file, In file files -> survivable source (root ++ [file])) ->
    exists st', process_files source root files st = Continue st'
                /\ (members_listed st -> members_listed st').
Proof.
  induction files as [|file rest IH]; intros st Hall; simpl.
  - exists st. split; [reflexivity | tauto].
  - destruct (process_file_survivable source root file st
                (Hall file (or_introl eq_refl))) as [st1 [H1 Hl1]].
    rewrite H1.
    destruct (IH st1 (fun f Hin => Hall f (or_intror Hin))) as [st' [H Hl]].
    exists st'. split; [exact H | tauto].
Qed.

Lemma process_walk_survivable (source : tree)
  (walk : list (path * list str * list str)) :
  forall st : zstate,
    (forall p, In p (visited walk) -> survivable source p) ->
    exists st', process_walk source walk st = Continue st'
                /\ (members_listed st -> members_listed st').
Proof.
  induction walk as [|[[root dirs] files] rest IH]; intros st Hall; simpl.
  - exists st. split; [reflexivity | tauto].
  - destruct (process_files_survivable source root files st) as [st1 [H1 Hl1]].
    { intros f Hin. apply Hall. cbn [visited flat_map fst snd].
      apply in_or_app. left. apply (in_map (fun file => root ++ [file])).
      exact Hin. }
    rewrite H1.
    destruct (IH st1) as [st' [H Hl]].
    { intros p Hin. apply Hall. cbn [visited flat_map fst snd].
      apply in_or_app. right. exact Hin. }
    exists st'. split; [exact H | tauto].
Qed.



(** The step on a file whose addition raises something else than
    [OSError]. *)
Lemma process_file_other_error (source : tree) (root : path) (file : str)
  (st : zstate) (data : bytes) :
  fs_lookup source (root ++ [file]) = RegularFile (File data BadTimestamp) ->
  exists st', process_file source root file st = Abort st'.
Proof.
  intros Hobj. unfold process_file. rewrite Hobj.
  rewrite (compute_file_hash_readable
             (RegularFile (File data BadTimestamp)) data CHUNK_SIZE);
    [|reflexivity | discriminate].
  cbn. eexists. reflexivity.
Qed.

Lemma process_files_other_error (source : tree) (root : path)
  (files : list str) :
  forall (st : zstate) (file : str) (data : bytes),
    In file files ->
    fs_lookup source (root ++ [file]) = RegularFile (File data BadTimestamp) ->
    exists st', process_files source root files st = Abort st'.
Proof.
  induction files as [|f rest IH]; intros st file data Hin Hobj;
    [destruct Hin|]. simpl.
  destruct (process_file source root f st) as [st1|st1] eqn:H1;
    [|exists st1; reflexivity].
  destruct Hin as [->|Hin].
  - destruct (process_file_other_error source root file st data Hobj)
      as [st' H']. congruence.
  - apply (IH st1 file data Hin Hobj).
Qed.

Lemma process_walk_other_error (source : tree)
  (walk : list (path * list str * list str)) :
  forall (st : zstate) (p : path) (data : bytes),
    In p (visited walk) ->
    fs_lookup source p = RegularFile (File data BadTimestamp) ->
    exists st', process_walk source walk st = Abort st'.
Proof.
  induction walk as [|[[root dirs] files] rest IH]; intros st p data Hin Hobj;
    [destruct Hin|]. simpl.
  cbn [visited flat_map fst snd] in Hin. apply in_app_or in Hin.
  destruct (process_files source root files st) as [st1|st1] eqn:H1;
    [|exists st1; reflexivity].
  destruct Hin as [Hin|Hin].
  - apply in_map_iff in Hin. destruct Hin as [file [<- Hfile]].
    destruct (process_files_other_error source root files st file data
                Hfile Hobj) as [st' H']. congruence.
  - apply (IH st1 p data Hin Hobj).
Qed.

(** X6.  An exception that is not an [OSError] gives up the whole run.  When
    some file of the source directory makes [ZipFile.write] raise such an
    exception (here: a time stamp before 1980), [zip_folder] returns
    [False] with an empty dictionary, whatever the other files are, and
    the manifest file is left as it was before the call. *)
Theorem other_exception_gives_up (e : env) (entries : list (str * tree))
  (d : disk) (p : path) (data : bytes) :
  In p (tree_files [] (Node entries)) ->
  fs_lookup (Node entries) p = RegularFile (File data BadTimestamp) ->
  fst (zip_folder e (Node entries) d) = (false, [])
  /\ manifest_file (snd (zip_folder e (Node entries) d)) = manifest_file d.
Proof.
  intros Hin Hobj. unfold zip_folder.
  destruct (can_create_zip e); [|split; reflexivity]. cbn [negb].
  destruct (process_walk_other_error (Node entries)
              (os_walk [] (Node entries)) (ZState [] [] true) p data)
    as [st Hwalk]; [|exact Hobj|].
  - apply (Permutation_in _
             (Permutation_sym (visited_os_walk (Node entries) []))).
    exact Hin.
  - rewrite Hwalk. split; reflexivity.
Qed.

Lemma other_exception_gives_up_witness :
  fst (zip_folder fair_env (Node dated_tree) empty_disk) = (false, [])
  /\ manifest_file (snd (zip_folder fair_env (Node dated_tree) empty_disk))
     = None.
Proof.
  apply (other_exception_gives_up fair_env dated_tree empty_disk
           [lit "old.txt"] hello).
  - vm_compute. left. reflexivity.
  - vm_compute. reflexivity.
Defined.

Lemma process_walk_no_files (source : tree)
  (walk : list (path * list str * list str)) (st : zstate) :
  visited walk = [] -> process_walk source walk st = Continue st.
Proof.
  induction walk as [|[[root dirs] files] rest IH]; intros Hnone;
    [reflexivity|].
  cbn [visited flat_map fst snd] in Hnone.
  apply app_eq_nil in Hnone. destruct Hnone as [Hfiles Hrest].
  apply map_eq_nil in Hfiles. subst files. simpl. apply IH. exact Hrest.
Qed.

(** X7.  Directories are not archived.  A source directory under which there
    is no regular file, however its empty directories are nested, gives
    an empty container and an empty manifest, [zip_folder] reports
    success, and the verification of these outputs succeeds. *)
Theorem tree_without_files_archives_empty (e : env)
  (entries : list (str * tree)) (d : disk) :
  tree_files [] (Node entries) = [] ->
  can_create_zip e = true -> can_write_log e = true ->
  zip_folder e (Node entries) d = ((true, []), Disk (Some []) (Some []))
  /\ verify_integrity (Some []) (Some []) = true.
Proof.
  intros Hnone Hz Hl. split; [|reflexivity].
  assert (Hvis : visited (os_walk [] (Node entries)) = []).
  { apply Permutation_nil. symmetry. rewrite <- Hnone.
    apply (visited_os_walk (Node entries) []). }
  rewrite (zip_folder_writes_manifest e (Node entries) d (ZState [] [] true)
             Hz Hl (process_walk_no_files _ _ _ Hvis)).
  reflexivity.
Qed.

Lemma tree_without_files_archives_empty_witness :
  zip_folder fair_env (Node hollow_tree) empty_disk
  = ((true, []), Disk (Some []) (Some [])).
Proof.
  apply (tree_without_files_archives_empty fair_env hollow_tree empty_disk);
    reflexivity.
Defined.

(** A run that reports success on a true hierarchy without backslashes
    has produced one manifest entry and one member per file visited. *)
Lemma successful_run_outputs (e : env) (entries : list (str * tree))
  (d d' : disk) (hashes : dict) :
  hierarchy (Node entries) = true ->
  backslash_free (Node entries) = true ->
  zip_folder e (Node entries) d = ((true, hashes), d') ->
  let source := Node entries in
  let files := visited (os_walk [] source) in
  hashes = map (manifest_entry source) files
  /\ d' = Disk (Some (map (stored_member source) files))
               (Some (write_manifest hashes)).
Proof.
  intros Hh Hb Hrun. cbv zeta.
  destruct (zip_folder_success _ _ _ _ _ Hrun) as [st [Hwalk [Hs [-> ->]]]].
  set (source := Node entries) in *.
  set (files := visited (os_walk [] source)) in *.
  assert (Harch : forall q, In q files -> archivable source q).
  { intros q Hq. split.
    - apply (visited_named entries); assumption.
    - apply (process_walk_success_sound _ _ _ _ Hwalk Hs q Hq). }
  rewrite (process_walk_archivable source (os_walk [] source)
             (ZState [] [] true) Harch) in Hwalk.
  cbn [file_hashes zipf success app] in Hwalk.
  pose proof (visited_portable_NoDup entries Hh Hb) as Hnd.
  fold source in Hnd. fold files in Hnd, Hwalk.
  rewrite (assign_all_fresh source files [] Hnd) in Hwalk.
  cbn [app] in Hwalk. injection Hwalk as <-.
  cbn [file_hashes zipf]. split; reflexivity.
Qed.

(* ===================================================================== *)
(** * Further properties of the command-line driver *)
(* ===================================================================== *)




(* ===================================================================== *)
(** * Properties of the test harness *)
(* ===================================================================== *)

Lemma walk_portable_paths (walk : list (path * list str * list str)) :
  flat_map (fun triple =>
              map (fun file =>
                     normalize_path (path_str (fst (fst triple) ++ [file])))
                  (snd triple))
           walk
  = map portable_path (visited walk).
Proof.
  induction walk as [|[[root dirs] files] rest IH]; [reflexivity|].
  cbn [flat_map visited fst snd]. fold (visited rest).
  rewrite IH, map_app, map_map. reflexivity.
Qed.

Lemma set_mem_In (x : str) (names : list str) :
  set_mem x names = true <-> In x names.
Proof. apply existsb_str_eqb. Qed.

Lemma set_diff_empty (a b : list str) : set_diff a b = [] <-> incl a b.
Proof.
  unfold set_diff. induction a as [|x rest IH]; simpl.
  - split; [intros _ y [] | reflexivity].
  - destruct (set_mem x b) eqn:E; simpl.
    + rewrite IH. apply set_mem_In in E. split.
      * intros Hincl y [<-|Hy]; [exact E | apply Hincl; exact Hy].
      * intros Hincl y Hy. apply Hincl. right. exact Hy.
    + split; [discriminate|]. intros Hincl. exfalso.
      assert (Hin : In x b) by (apply Hincl; left; reflexivity).
      apply set_mem_In in Hin. congruence.
Qed.

(** X17.  What the test of [test.py] decides: [verify_zip_contents] returns
    [True] exactly when the member names of the container and the
    normalised relative paths of the files of the directory are the same
    set; neither the contents nor the number of members under one name
    are looked at. *)
Theorem verify_zip_contents_compares_sets (zipf : container)
  (original_dir : tree) :
  verify_zip_contents (Some zipf) original_dir = Some true
  <-> (forall x : str,
          In x (map portable_path (visited (os_walk [] original_dir)))
          <-> In x (namelist zipf)).
Proof.
  unfold verify_zip_contents, original_files, namelist.
  rewrite walk_portable_paths.
  set (original := map portable_path (visited (os_walk [] original_dir))).
  set (names := map fst zipf).
  destruct (set_diff original names) as [|m ms] eqn:Hmiss;
    destruct (set_diff names original) as [|x xs] eqn:Hextra; cbn.
  - apply set_diff_empty in Hmiss. apply set_diff_empty in Hextra.
    split; [|reflexivity]. intros _ y. split; [apply Hmiss | apply Hextra].
  - split; [discriminate|]. intros Hsame. exfalso.
    assert (Hincl : incl names original)
      by (intros y Hy; apply Hsame; exact Hy).
    apply set_diff_empty in Hincl. congruence.
  - split; [discriminate|]. intros Hsame. exfalso.
    assert (Hincl : incl original names)
      by (intros y Hy; apply Hsame; exact Hy).
    apply set_diff_empty in Hincl. congruence.
  - split; [discriminate|]. intros Hsame. exfalso.
    assert (Hincl : incl original names)
      by (intros y Hy; apply Hsame; exact Hy).
    apply set_diff_empty in Hincl. congruence.
Qed.

(** X18.  The directory-structure test passes on a fresh archive: after a run
    of [zip_folder] that reports success on a true hierarchy without
    backslashes, [verify_zip_contents] on the container and the source
    directory returns [True]. *)
Theorem fresh_archive_passes_contents_test (e : env)
  (entries : list (str * tree)) (d d' : disk) (hashes : dict) :
  hierarchy (Node entries) = true ->
  backslash_free (Node entries) = true ->
  zip_folder e (Node entries) d = ((true, hashes), d') ->
  verify_zip_contents (container_file d') (Node entries) = Some true.
Proof.
  intros Hh Hb Hrun.
  destruct (successful_run_outputs e entries d d' hashes Hh Hb Hrun)
    as [_ ->].
  cbn [container_file]. unfold verify_zip_contents, original_files.
  rewrite walk_portable_paths.
  assert (Hnames : map fst (map (stored_member (Node entries))
                              (visited (os_walk [] (Node entries))))
                   = map portable_path (visited (os_walk [] (Node entries))))
    by (rewrite map_map; reflexivity).
  rewrite Hnames.
  rewrite (proj2 (set_diff_empty _ _) (incl_refl _)). reflexivity.
Qed.

Lemma fresh_archive_passes_contents_test_witness :
  verify_zip_contents
    (container_file (snd (zip_folder fair_env (Node sample_tree) empty_disk)))
    (Node sample_tree)
  = Some true.
Proof.
  apply (fresh_archive_passes_contents_test fair_env sample_tree empty_disk
           (snd (zip_folder fair_env (Node sample_tree) empty_disk))
           (snd (fst (zip_folder fair_env (Node sample_tree) empty_disk))));
    vm_compute; reflexivity.
Defined.

(* ===================================================================== *)
(** * Further properties of the Manifest Reader *)
(* ===================================================================== *)

Lemma keys_add_In (keys : list str) (k x : str) :
  In x (keys_add keys k) <-> In x keys \/ x = k.
Proof.
  unfold keys_add.
  destruct (existsb (fun k' => str_eqb k' k) keys) eqn:E.
  - split; [tauto|]. intros [H|Heq]; [exact H|]. subst x.
    apply existsb_exists in E. destruct E as [y [Hin Heq]].
    apply str_eqb_eq in Heq. subst. exact Hin.
  - rewrite in_app_iff. simpl. split.
    + intros [H|[H|[]]]; [left; exact H | right; symmetry; exact H].
    + intros [H|H]; [left; exact H | right; left; symmetry; exact H].
Qed.

Lemma read_lines_keys (lines : list str) :
  forall acc d : dict,
    read_lines lines acc = Some d ->
    NoDup (dict_keys acc) ->
    NoDup (dict_keys d)
    /\ forall k : str,
         In k (dict_keys d)
         <-> In k (dict_keys acc)
             \/ exists line v, In line lines /\ parse_line line = Some (k, v).
Proof.
  induction lines as [|line rest IH]; intros acc d Hread Hnd; simpl in Hread.
  - injection Hread as <-. split; [exact Hnd|].
    intros k. split; [tauto|]. intros [H|[l [v [[] _]]]]. exact H.
  - destruct (parse_line line) as [[file_path file_hash]|] eqn:Hp;
      [|discriminate].
    destruct (IH _ d Hread) as [Hnd' Hkeys].
    { rewrite dict_keys_set. apply keys_add_NoDup. exact Hnd. }
    split; [exact Hnd'|]. intros k. rewrite Hkeys, dict_keys_set, keys_add_In.
    split.
    + intros [[H|Heq]|[l [v [Hin Hl]]]].
      * left. exact H.
      * subst k. right. exists line, file_hash.
        split; [left; reflexivity | exact Hp].
      * right. exists l, v. split; [right; exact Hin | exact Hl].
    + intros [H|[l [v [[<-|Hin] Hl]]]].
      * left. left. exact H.
      * rewrite Hp in Hl. injection Hl as <- _. left. right. reflexivity.
      * right. exists l, v. split; assumption.
Qed.



(* ===================================================================== *)
(** * Corruption of a stored file is detected *)
(* ===================================================================== *)

Lemma digest_shape (data : bytes) : digest_ok (SHA256.hexdigest_of data).
Proof.
  split; [|apply hex_words_shape].
  intros Hnil.
  pose proof (proj1 (hex_words_shape (SHA256.digest_words data))) as Hlen.
  unfold SHA256.hexdigest_of in Hnil. rewrite Hnil in Hlen.
  discriminate Hlen.
Qed.


